(** * Schema-to-TypeScript translation (schema2type)

    A shallow embedding of the translator that turns an OpenAPI / JSON-Schema
    node into a TypeScript type expression: [comment], [parseSchema],
    [parseObject], [parseArray], [parseEnum], [convertToType] and
    [jsonSchema2TsStr].

    Conventions.
    - A JavaScript string is a Rocq [string]; its characters stand for code
      units below 256.
    - The engine is written in a state-and-exception monad: the state is
      whatever the reference observer [on$Ref] acts on, [Throw] is a
      JavaScript exception, and [OutOfFuel] is the only outcome that is not
      an outcome of the program: the recursion did not finish within the
      given bound, and the state is the one reached by then.  The call stack
      has no bound in the model, so a recursion that never ends is one that
      gives [OutOfFuel] for every bound.
    - An [async] function runs synchronously up to its first [await]; what
      follows the [await] is a pending task that completes later. *)

From Stdlib Require Import Ascii DecimalString DecimalPos DecimalZ.
From stdpp Require Import gmap strings list.

Set Warnings "-register-all".

Local Open Scope string_scope.
Local Open Scope Z_scope.

(** ** Strings *)

Module Str.

Definition nl : string := String "010"%char "".

(** The double quote, as a string of one character. *)
Definition dq : string := String "034"%char "".

(** [l.join(sep)] *)
Definition join (sep : string) (l : list string) : string := String.concat sep l.

(** [s.split(sep)] for a separator of one character *)
Fixpoint split (sep : ascii) (s : string) : list string :=
  match s with
  | "" => [""]
  | String c s' =>
      if Ascii.eqb c sep then "" :: split sep s'
      else match split sep s' with
           | h :: t => String c h :: t
           | [] => [String c ""]
           end
  end.

(** [s.startsWith(p)] *)
Definition startsWith (p s : string) : bool := String.prefix p s.

(** White space of [String.prototype.trim] among the code units below 256:
    TAB, LF, VT, FF, CR, SP and NBSP. *)
Definition is_white (c : ascii) : bool :=
  let n := nat_of_ascii c in
  ((9 <=? n)%nat && (n <=? 13)%nat) || (n =? 32)%nat || (n =? 160)%nat.

Fixpoint trimStart (s : string) : string :=
  match s with
  | "" => ""
  | String c s' => if is_white c then trimStart s' else s
  end.

(** [s.trim()] *)
Definition trim (s : string) : string :=
  String.rev (trimStart (String.rev (trimStart s))).

(** The text after the first occurrence of [needle] in [s], if any: the
    group captured by the regular expression that is [needle] followed by
    a greedy any-character group, with the dot-all flag. *)
Fixpoint drop (n : nat) (s : string) : string :=
  match n, s with
  | S n', String _ s' => drop n' s'
  | _, _ => s
  end.

Fixpoint after_first (needle s : string) : option string :=
  if String.prefix needle s then Some (drop (String.length needle) s)
  else match s with
       | "" => None
       | String _ s' => after_first needle s'
       end.

(** The longest prefix without a line terminator: what a greedy
    any-character group matches without the dot-all flag. *)
Fixpoint line_prefix (s : string) : string :=
  match s with
  | "" => ""
  | String c s' =>
      if Ascii.eqb c "010"%char || Ascii.eqb c "013"%char then ""
      else String c (line_prefix s')
  end.

(** The same capture without the dot-all flag: it stops at the end of the
    line. *)
Definition after_first_line (needle s : string) : option string :=
  line_prefix <$> after_first needle s.

Definition of_Z (n : Z) : string := NilZero.string_of_int (Z.to_int n).

End Str.

(** ** JSON values and [JSON.stringify] *)

Inductive json : Type :=
| JNull
| JBool (b : bool)
| JNum (n : Z)
| JStr (s : string)
| JArr (l : list json)
| JObj (l : list (string * json)).

Module JSON.

Definition hex_digit (n : nat) : ascii :=
  ascii_of_nat (if (n <? 10)%nat then 48 + n else 87 + n)%nat.

(** One code unit of a quoted string (QuoteJSONString). *)
Definition quote_char (c : ascii) : string :=
  let n := nat_of_ascii c in
  if (n =? 34)%nat then "\" +:+ Str.dq
  else if (n =? 92)%nat then "\\"
  else if (n =? 8)%nat then "\b"
  else if (n =? 12)%nat then "\f"
  else if (n =? 10)%nat then "\n"
  else if (n =? 13)%nat then "\r"
  else if (n =? 9)%nat then "\t"
  else if (n <? 32)%nat then
    "\u00" +:+ String (hex_digit (n / 16)) (String (hex_digit (n mod 16)) "")
  else String c "".

Fixpoint quote_body (s : string) : string :=
  match s with
  | "" => ""
  | String c s' => quote_char c +:+ quote_body s'
  end.

Definition quote (s : string) : string := Str.dq +:+ quote_body s +:+ Str.dq.

(** [JSON.stringify(v)] without indentation.  A number is an integer [n]
    and is printed in plain decimal notation, which is what the program
    prints for the integers below [10^21]; exponent notation, fractions, NaN
    and the infinities are outside the model, and statements about numbers
    are made for the integers a JavaScript number holds exactly
    ([safe_integer]).  The entries of an object are listed in the order in
    which the program enumerates them. *)
Fixpoint stringify (v : json) : string :=
  match v with
  | JNull => "null"
  | JBool true => "true"
  | JBool false => "false"
  | JNum n => Str.of_Z n
  | JStr s => quote s
  | JArr l => "[" +:+ Str.join "," (map stringify l) +:+ "]"
  | JObj l =>
      "{" +:+ Str.join "," (map (fun kv => let '(k, x) := kv in
                                           quote k +:+ ":" +:+ stringify x) l) +:+ "}"
  end.

(** [Number.isSafeInteger(n)]: the integers of magnitude below [2^53]. *)
Definition safe_integer (n : Z) : bool := Z.abs n <? 2 ^ 53.

(** Every number inside the value is a safe integer. *)
Fixpoint safe (v : json) : bool :=
  match v with
  | JNum n => safe_integer n
  | JArr l => forallb safe l
  | JObj l => forallb (fun kv => safe kv.2) l
  | _ => true
  end.

(** The code units that a quoted string holds as they are. *)
Definition plain_char (c : ascii) : bool :=
  let n := nat_of_ascii c in
  (32 <=? n)%nat && negb (n =? 34)%nat && negb (n =? 92)%nat.

Fixpoint plain (s : string) : bool :=
  match s with
  | "" => true
  | String c s' => plain_char c && plain s'
  end.

(** Reading a JSON string literal back, by the grammar of JSON strings
    ([JSON.parse] on a string literal): the escapes after a backslash, four
    hexadecimal digits after [\u], no raw control character, and the
    closing quote at the end.  It is written independently of [quote] and
    serves to state what [quote] produces. *)
Definition hex_value (c : ascii) : option nat :=
  let n := nat_of_ascii c in
  if (48 <=? n)%nat && (n <=? 57)%nat then Some (n - 48)%nat
  else if (97 <=? n)%nat && (n <=? 102)%nat then Some (n - 87)%nat
  else if (65 <=? n)%nat && (n <=? 70)%nat then Some (n - 55)%nat
  else None.

Definition unescape (e : ascii) : option ascii :=
  let n := nat_of_ascii e in
  if (n =? 34)%nat then Some "034"%char
  else if (n =? 92)%nat then Some "092"%char
  else if (n =? 47)%nat then Some "047"%char
  else if (n =? 98)%nat then Some "008"%char
  else if (n =? 102)%nat then Some "012"%char
  else if (n =? 110)%nat then Some "010"%char
  else if (n =? 114)%nat then Some "013"%char
  else if (n =? 116)%nat then Some "009"%char
  else None.

(** The text after the opening quote. *)
Fixpoint unquote_body (s : string) : option string :=
  match s with
  | "" => None
  | String c s' =>
      let n := nat_of_ascii c in
      if (n =? 34)%nat then match s' with "" => Some "" | String _ _ => None end
      else if (n =? 92)%nat then
        match s' with
        | "" => None
        | String e s'' =>
            if (nat_of_ascii e =? 117)%nat then
              match s'' with
              | String h1 (String h2 (String h3 (String h4 rest))) =>
                  match hex_value h1, hex_value h2, hex_value h3, hex_value h4 with
                  | Some a, Some b, Some c', Some d =>
                      let code := (((a * 16 + b) * 16 + c') * 16 + d)%nat in
                      if (code <? 256)%nat
                      then String (ascii_of_nat code) <$> unquote_body rest
                      else None
                  | _, _, _, _ => None
                  end
              | _ => None
              end
            else
              match unescape e with
              | Some x => String x <$> unquote_body s''
              | None => None
              end
        end
      else if (n <? 32)%nat then None
      else String c <$> unquote_body s'
  end.

Definition unquote (s : string) : option string :=
  match s with
  | "" => None
  | String q s' => if (nat_of_ascii q =? 34)%nat then unquote_body s' else None
  end.

End JSON.

(** ** The schema data model

    A node is either a reference object or a schema object; the constructor
    plays the part of [isReferenceObject].  Only the fields the translator
    reads are kept.  [properties] lists the entries in the order
    [Object.entries] yields them. *)

Record ReferenceObject : Type := { ref : string }.

(** The [type] field: absent, a string, or (OpenAPI 3.1) a list of strings. *)
Inductive TypeField : Type :=
| TypeAbsent
| TypeStr (s : string)
| TypeArr (l : list string).

(** The schema object is a record over the type of its child nodes, so that
    the node type can be tied afterwards. *)
Inductive ItemsOf (N : Type) : Type :=
| ItemsAbsent
| ItemsOne (s : N)
| ItemsTuple (l : list N).
Arguments ItemsAbsent {N}.
Arguments ItemsOne {N} s.
Arguments ItemsTuple {N} l.

Record SchemaObjectOf (N : Type) : Type := mkSchemaObject {
  type : TypeField;
  enum : option (list json);
  oneOf : option (list N);
  properties : option (list (string * N));
  required : option (list string);
  items : ItemsOf N;
  title : option string;
  description : option string;
  deprecated : option bool }.
Arguments mkSchemaObject {N}.
Arguments type {N} _.
Arguments enum {N} _.
Arguments oneOf {N} _.
Arguments properties {N} _.
Arguments required {N} _.
Arguments items {N} _.
Arguments title {N} _.
Arguments description {N} _.
Arguments deprecated {N} _.

Inductive Schema : Type :=
| Ref (r : ReferenceObject)
| Sch (s : SchemaObjectOf Schema).

Abbreviation SchemaObject := (SchemaObjectOf Schema).
Abbreviation Items := (ItemsOf Schema).

(** The schema object with no field set. *)
Definition emptySchema : SchemaObject :=
  {| type := TypeAbsent; enum := None; oneOf := None; properties := None;
     required := None; items := ItemsAbsent; title := None;
     description := None; deprecated := None |}.

(** JavaScript truthiness of an optional boolean and of an optional string. *)
Definition truthy (b : option bool) : bool := default false b.
Definition nonempty (s : option string) : bool :=
  match s with
  | Some (String _ _) => true
  | _ => false
  end.

(** ** Outcomes and the engine monad *)

Inductive Error : Type :=
| UnresolvedRef (pointer : string)
| FormatError (source : string)
| ObserverError (msg : string).

Inductive outcome (St A : Type) : Type :=
| Return (a : A) (st : St)
| Throw (e : Error) (st : St)
| OutOfFuel (st : St).
Arguments Return {St A} a st.
Arguments Throw {St A} e st.
Arguments OutOfFuel {St A} st.

Definition M (St A : Type) : Type := St -> outcome St A.

Definition ret {St A} (a : A) : M St A := fun st => Return a st.
Definition throw {St A} (e : Error) : M St A := fun st => Throw e st.
Definition bind {St A B} (m : M St A) (k : A -> M St B) : M St B :=
  fun st =>
    match m st with
    | Return a st' => k a st'
    | Throw e st' => Throw e st'
    | OutOfFuel st' => OutOfFuel st'
    end.

Notation "'let*' x ':=' m 'in' k" := (bind m (fun x => k))
  (at level 10, x pattern, m at level 100, k at level 200).

(** [l.map(f)] for an effectful [f], left to right. *)
Fixpoint mapM {St A B} (f : A -> M St B) (l : list A) : M St (list B) :=
  match l with
  | [] => ret []
  | x :: l' => let* y := f x in let* ys := mapM f l' in ret (y :: ys)
  end.

(** A [for ... of] loop threading an accumulator. *)
Fixpoint foldM {St A B} (f : B -> A -> M St B) (l : list A) (b : B) : M St B :=
  match l with
  | [] => ret b
  | x :: l' => let* b' := f b x in foldM f l' b'
  end.

(** ** Options *)

Inductive DefaultType : Type := any | unknown.
Definition DefaultType_str (d : DefaultType) : string :=
  match d with any => "any" | unknown => "unknown" end.

Inductive CommentStyle : Type := Line | Docment.

Record Schema2TypeOptions (St : Type) : Type := {
  deep : option bool;
  defaultType : option DefaultType;
  commentStyle : option CommentStyle;
  preText : option string;
  on_Ref : option (ReferenceObject -> M St unit) }.
Arguments deep {St} _.
Arguments defaultType {St} _.
Arguments commentStyle {St} _.
Arguments preText {St} _.
Arguments on_Ref {St} _.

(** ** The comment builder

    [comment(type)] returns two closures over the variables [str] and [idx];
    here the pair of variables is a record that [add] transforms and [end_]
    reads. *)

Module Comment.

Record t : Type := { str : string; idx : nat }.

Definition init : t := {| str := ""; idx := 0 |}.

Definition startText (ty : CommentStyle) : string :=
  match ty with Docment => "/**" +:+ Str.nl | Line => "" end.
Definition endText (ty : CommentStyle) : string :=
  match ty with Docment => Str.nl +:+ " */" +:+ Str.nl | Line => Str.nl end.
Definition preText (ty : CommentStyle) : string :=
  match ty with Docment => " *" | Line => "//" end.

Definition docmentKeyArr : list (string * string) :=
  [("[deprecated]", "@deprecated")].

Definition docmentTransformeKeyArr : list (string * (string -> string)) :=
  [("[title]",
    fun text =>
      let nextText := default "" (Str.after_first_line "[title]" text) in
      Str.trim nextText +:+ Str.nl +:+ "---")].

Definition transformeText (ty : CommentStyle) (text : string) : string :=
  match ty with
  | Line => text
  | Docment =>
      match find (fun item => Str.startsWith item.1 text) docmentTransformeKeyArr with
      | Some docmentTransformeFn => docmentTransformeFn.2 text
      | None =>
          match find (fun item => String.eqb item.1 text) docmentKeyArr with
          | Some item => item.2
          | None => text
          end
      end
  end.

Definition add (ty : CommentStyle) (text : string) (c : t) : t :=
  let str0 := match idx c with O => str c | S _ => str c +:+ Str.nl end in
  {| str := str0 +:+
            Str.join Str.nl
              (map (fun item => preText ty +:+ " " +:+ item)
                   (Str.split "010"%char (transformeText ty text)));
     idx := S (idx c) |}.

Definition end_ (ty : CommentStyle) (c : t) : string :=
  match str c with
  | "" => str c
  | _ => startText ty +:+ str c +:+ endText ty
  end.

End Comment.

(** ** The engine: [parseSchema], [parseObject], [parseArray], [parseEnum]

    [findBy$ref] and [get$refName] belong to the [openapi] module and are
    parameters here; [findBy$ref] fails ([None]) on a pointer it cannot
    resolve.  The three mutually recursive functions are tied through the
    argument [rec] of [parseObject] and [parseArray]; each call of
    [parseSchema] uses one unit of fuel. *)

Section Engine.

Context {St Document : Type}.
Variable findBy_ref : string -> Document -> option SchemaObject.
Variable get_refName : string -> string.

Definition resolve (pointer : string) (openApi : Document) : M St SchemaObject :=
  match findBy_ref pointer openApi with
  | Some s => ret s
  | None => throw (UnresolvedRef pointer)
  end.

(** [config.on$Ref?.(r)] *)
Definition notify (config : Schema2TypeOptions St) (r : ReferenceObject) : M St unit :=
  match on_Ref config with
  | Some f => f r
  | None => ret tt
  end.

(** [config.defaultType ?? 'unknown'] *)
Definition fallbackType (config : Schema2TypeOptions St) : string :=
  match defaultType config with
  | Some d => DefaultType_str d
  | None => "unknown"
  end.

Definition parseEnum (schema : SchemaObject) : string :=
  match enum schema with
  | Some values => Str.join " | " (map JSON.stringify values)
  | None => ""
  end.

(** One turn of the loop of [parseObject] over the entries of [properties]:
    the lines of the property [key] are added to [lines]. *)
Definition parseProperty (rec : Schema -> M St string)
    (openApi : Document) (config : Schema2TypeOptions St) (required : gset string)
    (lines : list string) (entry : string * Schema) : M St (list string) :=
  let '(key, valueOrigin) := entry in
  let optionalFlag := if bool_decide (key ∈ required) then "" else "?" in
  let* value :=
    match valueOrigin with
    | Ref r => resolve (ref r) openApi
    | Sch v => ret v
    end in
  let* type := rec valueOrigin in
  let style := default Line (commentStyle config) in
  let doc := Comment.init in
  let doc := if nonempty (title value)
             then Comment.add style ("[title] " +:+ default "" (title value)) doc
             else doc in
  let doc := if nonempty (description value)
             then Comment.add style (default "" (description value)) doc
             else doc in
  let doc := if bool_decide (key ∈ required)
             then Comment.add style "[required]" doc
             else doc in
  let doc := if truthy (deprecated value)
             then Comment.add style "[deprecated]" doc
             else doc in
  let valueStr := Comment.end_ style doc +:+ key +:+ optionalFlag +:+ ": " +:+ type +:+ ";" in
  ret (lines ++ map (fun line => " " +:+ line) (Str.split "010"%char valueStr))%list.

Definition parseObject (rec : Schema -> M St string)
    (schema : SchemaObject) (openApi : Document) (config : Schema2TypeOptions St)
  : M St string :=
  let properties := default [] (properties schema) in
  let required : gset string := list_to_set (default [] (required schema)) in
  let* lines := foldM (parseProperty rec openApi config required) properties ["{"] in
  let lines := (lines ++ ["}"])%list in
  ret (if (2 <? length lines)%nat then Str.join Str.nl lines else "object").

(** [schema.type === name] *)
Definition type_is (name : string) (t : TypeField) : bool :=
  match t with
  | TypeStr s => String.eqb s name
  | _ => false
  end.

(** The seven values of [type] that [parseSchema] has a case for. *)
Definition recognized (t : TypeField) : bool :=
  type_is "object" t || type_is "array" t || type_is "string" t ||
  type_is "number" t || type_is "integer" t || type_is "boolean" t ||
  type_is "null" t.

(** The wrapping of an array whose single [items] schema rendered as
    [tsType]: the [switch] on [items.type], then the test of [oneOf] and
    [enum]. *)
Definition wrapItems (items : SchemaObject) (tsType : string) : string :=
  if type_is "object" (type items) then "Array<" +:+ tsType +:+ ">"
  else if type_is "array" (type items) then tsType +:+ "[]"
  else if bool_decide (is_Some (oneOf items)) || bool_decide (is_Some (enum items))
       then "(" +:+ tsType +:+ ")[]"
  else tsType +:+ "[]".

Definition parseArray (rec : Schema -> M St string)
    (schema : SchemaObject) (openApi : Document) (config : Schema2TypeOptions St)
  : M St string :=
  match items schema with
  | ItemsTuple l =>
      let* types := mapM rec l in
      (* the template literal prints the mapped array with its elements
         separated by commas *)
      ret ("[" +:+ Str.nl +:+
           Str.join "," (map (fun tsType => tsType +:+ "," +:+ Str.nl) types) +:+
           Str.nl +:+ "]")
  | ItemsOne it =>
      match it, truthy (deep config) with
      | Ref r, false =>
          let* _ := notify config r in
          ret (get_refName (ref r) +:+ "[]")
      | _, _ =>
          let* items :=
            match it with
            | Ref r => resolve (ref r) openApi
            | Sch s => ret s
            end in
          let* tsType := rec (Sch items) in
          ret (wrapItems items tsType)
      end
  | ItemsAbsent => ret "[]"
  end.

(** Lines 82 to 106 of [parseSchema]: the dispatch on the schema object
    once a reference has been resolved. *)
Definition dispatch (rec : Schema -> M St string)
    (schema : SchemaObject) (openApi : Document) (config : Schema2TypeOptions St)
  : M St string :=
  match enum schema with
  | Some _ => ret (parseEnum schema)
  | None =>
      let ty := type schema in
      if type_is "object" ty then parseObject rec schema openApi config
      else if type_is "array" ty then parseArray rec schema openApi config
      else if type_is "string" ty then ret "string"
      else if type_is "number" ty || type_is "integer" ty then ret "number"
      else if type_is "boolean" ty then ret "boolean"
      else if type_is "null" ty then ret "null"
      else
        match oneOf schema with
        | Some branches =>
            let* parts := mapM rec branches in
            ret (Str.join " | " parts)
        | None =>
            ret (match ty with
                 | TypeStr (String _ _ as name) => name
                 | _ => fallbackType config
                 end)
        end
  end.

Fixpoint parseSchema (fuel : nat) (schemaOrigin : Schema)
    (openApi : Document) (config : Schema2TypeOptions St) {struct fuel}
  : M St string :=
  match fuel with
  | O => fun st => OutOfFuel st
  | S fuel' =>
      let rec := fun s => parseSchema fuel' s openApi config in
      match schemaOrigin with
      | Ref r =>
          let* _ := notify config r in
          if negb (truthy (deep config)) then ret (get_refName (ref r))
          else
            let* schema := resolve (ref r) openApi in
            dispatch rec schema openApi config
      | Sch schema => dispatch rec schema openApi config
      end
  end.

End Engine.

(** ** The declaration formatter: [convertToType]

    [format] (module [utils], the pretty-printer called with [semi: false])
    is a parameter; [None] is a rejected promise.  [convertToType] runs
    synchronously up to [await format(...)]: [convertToType_sync] is that
    part, and its value says what the call is suspended on;
    [convertToType_resume] is the part after the [await]. *)

Inductive Suspended : Type :=
| Resolved (tsStr : string)
| AwaitFormat (source : string).

Section Formatter.

Context {St Document : Type}.
Variable findBy_ref : string -> Document -> option SchemaObject.
Variable get_refName : string -> string.
Variable format : string -> option string.

(** The default value of the parameter [config]. *)
Definition defaultConfig : Schema2TypeOptions St :=
  {| deep := Some true; defaultType := Some unknown; commentStyle := Some Line;
     preText := Some ""; on_Ref := None |}.

Definition convertToType_sync (fuel : nat) (schemaOrigin : option Schema)
    (openApi : Document) (config : Schema2TypeOptions St) : M St Suspended :=
  match schemaOrigin with
  | None => ret (Resolved (fallbackType config))
  | Some schema =>
      let* tsStr := parseSchema findBy_ref get_refName fuel schema openApi config in
      ret (AwaitFormat ("type Ts = " +:+ tsStr))
  end.

Definition convertToType_resume (config : Schema2TypeOptions St)
    (tsStrFormat : string) : string :=
  let resultFormat := default "" (Str.after_first "type Ts = " tsStrFormat) in
  let tsStrArr := Str.split "010"%char (Str.trim resultFormat) in
  Str.join Str.nl
    (imap (fun idx line =>
             match idx with
             | O => ""
             | S _ => default "undefined" (preText config)
             end +:+ line) tsStrArr).

(** What a suspended call resolves to, or the error it rejects with. *)
Definition settle (config : Schema2TypeOptions St) (p : Suspended) : Error + string :=
  match p with
  | Resolved tsStr => inr tsStr
  | AwaitFormat source =>
      match format source with
      | Some tsStrFormat => inr (convertToType_resume config tsStrFormat)
      | None => inl (FormatError source)
      end
  end.

(** The whole call, as its caller sees it once the promise is settled. *)
Definition convertToType (fuel : nat) (schemaOrigin : option Schema)
    (openApi : Document) (config : Schema2TypeOptions St) : M St string :=
  let* p := convertToType_sync fuel schemaOrigin openApi config in
  match settle config p with
  | inr tsStr => ret tsStr
  | inl e => throw e
  end.

End Formatter.

(** ** The reference collector: [jsonSchema2TsStr]

    The state is the memo [map] (here [memo]), the nested calls suspended at
    their [await], and the record of the calls of the caller's sink
    [on$RefTsStr], each with the memo as it is when the sink is called. *)

Record JsonSchema2TsOptions : Type := {
  export : option bool;
  js_deep : option bool;
  (** whether the caller supplied [on$RefTsStr] *)
  on_RefTsStr : bool }.

Record SinkCall : Type := {
  sink_name : string;
  sink_tsStr : string;
  sink_memo : gmap string string }.

Record Task : Type := { task_name : string; task_call : Suspended }.

Record CState : Type := {
  memo : gmap string string;
  pending : list Task;
  sunk : list SinkCall }.

Definition start (m : gmap string string) : CState :=
  {| memo := m; pending := []; sunk := [] |}.

(** [options.on$RefTsStr(name, tsStr)] *)
Definition call_sink (name tsStr : string) (st : CState) : CState :=
  {| memo := memo st; pending := pending st;
     sunk := (sunk st ++ [{| sink_name := name; sink_tsStr := tsStr; sink_memo := memo st |}])%list |}.

(** [map.set(name, result)] *)
Definition map_set (name result : string) (st : CState) : CState :=
  {| memo := <[name := result]> (memo st); pending := pending st; sunk := sunk st |}.

Definition spawn (t : Task) (st : CState) : CState :=
  {| memo := memo st; pending := (pending st ++ [t])%list; sunk := sunk st |}.

Definition set_pending (l : list Task) (st : CState) : CState :=
  {| memo := memo st; pending := l; sunk := sunk st |}.

Section Collector.

Context {Document : Type}.
Variable findBy_ref : string -> Document -> option SchemaObject.
Variable get_refName : string -> string.
Variable format : string -> option string.

(** The [async on$Ref] passed to [convertToType], up to its [await]; [self]
    is [jsonSchema2TsStr].  An exception raised before the [await] rejects
    a promise nobody awaits.  A nested call that does not finish within the
    bound leaves the whole run unfinished: the call stack has no bound here,
    and the error that a full stack raises in the program, which this
    function would turn into a rejected promise as well, is not modelled.
    Nothing is stated below about a run that exhausts its bound through
    nested calls alone, without deep mode. *)
Definition on_Ref_async (self : Schema -> string -> M CState Suspended)
    (openApi : Document) (options : JsonSchema2TsOptions)
    (refObject : ReferenceObject) : M CState unit :=
  fun st =>
    if on_RefTsStr options then
      let name := get_refName (ref refObject) in
      match memo st !! name with
      | Some cached => Return tt (call_sink name cached st)
      | None =>
          match findBy_ref (ref refObject) openApi with
          | None => Return tt st
          | Some target =>
              match self (Sch target) name st with
              | Return p st' => Return tt (spawn {| task_name := name; task_call := p |} st')
              | Throw _ st' => Return tt st'
              | OutOfFuel st' => OutOfFuel st'
              end
          end
      end
    else Return tt st.

Definition collectorConfig (options : JsonSchema2TsOptions)
    (on_Ref' : ReferenceObject -> M CState unit) : Schema2TypeOptions CState :=
  {| deep := js_deep options; defaultType := Some unknown;
     commentStyle := Some Docment; preText := Some ""; on_Ref := Some on_Ref' |}.

(** [jsonSchema2TsStr] up to its [await convertToType(...)] *)
Fixpoint jsonSchema2TsStr_sync (fuel : nat) (schema : Schema) (name : string)
    (openApi : Document) (options : JsonSchema2TsOptions) {struct fuel}
  : M CState Suspended :=
  match fuel with
  | O => fun st => OutOfFuel st
  | S fuel' =>
      convertToType_sync findBy_ref get_refName fuel' (Some schema) openApi
        (collectorConfig options
           (on_Ref_async (fun s n => jsonSchema2TsStr_sync fuel' s n openApi options)
              openApi options))
  end.

(** [jsonSchema2TsStr] after the [await]. *)
Definition jsonSchema2TsStr_resume (options : JsonSchema2TsOptions)
    (name : string) (p : Suspended) : Error + string :=
  match settle format (collectorConfig options (fun _ => ret tt)) p with
  | inr tsStr =>
      let result := "interface " +:+ name +:+ " " +:+ tsStr in
      inr (if truthy (export options) then "export " +:+ result else result)
  | inl e => inl e
  end.

(** The top-level call, as its caller sees it once its promise is settled.
    The state it returns is the one the synchronous part leaves: the nested
    calls are still pending. *)
Definition jsonSchema2TsStr (fuel : nat) (schema : Schema) (name : string)
    (openApi : Document) (options : JsonSchema2TsOptions) : M CState string :=
  let* p := jsonSchema2TsStr_sync fuel schema name openApi options in
  match jsonSchema2TsStr_resume options name p with
  | inr result => ret result
  | inl e => throw e
  end.

(** The rest of [on$Ref] for one suspended nested call: the call settles,
    then [map.set] and the sink.  A rejected call ends there. *)
Definition complete (options : JsonSchema2TsOptions) (t : Task) (st : CState) : CState :=
  match jsonSchema2TsStr_resume options (task_name t) (task_call t) with
  | inr result => call_sink (task_name t) result (map_set (task_name t) result st)
  | inl _ => st
  end.

(** Pending calls settle one at a time, in any order. *)
Inductive step (options : JsonSchema2TsOptions) : CState -> CState -> Prop :=
| step_complete st t l1 l2 :
    pending st = (l1 ++ t :: l2)%list ->
    step options st (complete options t (set_pending (l1 ++ l2)%list st)).

(** All pending calls settled in the order they were suspended. *)
Definition drain (options : JsonSchema2TsOptions) (st : CState) : CState :=
  foldl (fun st t => complete options t st) (set_pending [] st) (pending st).

End Collector.

(** ** A reference resolver for the scenarios *)

Module Openapi.

(** Modelled from the spec: the reference resolver of module [openapi],
    which is not part of the sources at hand.  A document is the table of its
    named schemas by pointer; [findBy_ref] looks the pointer up and fails on
    a pointer the table does not have; [get_refName] is the short display
    name of a pointer, its last path segment. *)
Definition Document : Type := list (string * SchemaObject).

Definition findBy_ref (pointer : string) (openApi : Document) : option SchemaObject :=
  snd <$> find (fun entry => String.eqb entry.1 pointer) openApi.

Fixpoint last_segment (acc s : string) : string :=
  match s with
  | "" => acc
  | String c s' =>
      if Ascii.eqb c "/"%char then last_segment "" s'
      else last_segment (acc +:+ String c "") s'
  end.

Definition get_refName (pointer : string) : string := last_segment "" pointer.

End Openapi.

(** ** Schemas and documents of the scenarios *)

Definition set_items (it : Items) (s : SchemaObject) : SchemaObject :=
  {| type := type s; enum := enum s; oneOf := oneOf s; properties := properties s;
     required := required s; items := it; title := title s;
     description := description s; deprecated := deprecated s |}.

Module Scenario.

Definition typed (t : string) : SchemaObject :=
  {| type := TypeStr t; enum := None; oneOf := None; properties := None;
     required := None; items := ItemsAbsent; title := None;
     description := None; deprecated := None |}.

Definition object (props : list (string * Schema)) (req : option (list string)) : SchemaObject :=
  {| type := TypeStr "object"; enum := None; oneOf := None; properties := Some props;
     required := req; items := ItemsAbsent; title := None;
     description := None; deprecated := None |}.

Definition array (it : Items) : SchemaObject := set_items it (typed "array").

Definition enumOf (values : list json) (t : TypeField) : SchemaObject :=
  {| type := t; enum := Some values; oneOf := None; properties := None;
     required := None; items := ItemsAbsent; title := None;
     description := None; deprecated := None |}.

Definition deprecatedString : SchemaObject :=
  {| type := TypeStr "string"; enum := None; oneOf := None; properties := None;
     required := None; items := ItemsAbsent; title := None;
     description := None; deprecated := Some true |}.

(** [{type: object, required: [id], properties: {id: {type: integer},
    note: {type: string, deprecated: true}}}] *)
Definition idNote : SchemaObject :=
  object [("id", Sch (typed "integer")); ("note", Sch deprecatedString)] (Some ["id"]).

(** [{type: array, items: {type: object, properties: {x: {type: number}}}}] *)
Definition arrayOfObject : SchemaObject :=
  array (ItemsOne (Sch (object [("x", Sch (typed "number"))] None))).

(** [{type: array, items: [{type: string}, {type: number}]}] *)
Definition pair : SchemaObject :=
  array (ItemsTuple [Sch (typed "string"); Sch (typed "number")]).

Definition refTo (pointer : string) : Schema := Ref {| ref := pointer |}.

Definition pA : string := "#/components/schemas/A".
Definition pB : string := "#/components/schemas/B".

(** Two named schemas that reference each other. *)
Definition schemaA : SchemaObject := object [("b", refTo pB)] None.
Definition schemaB : SchemaObject := object [("a", refTo pA)] None.

Definition cyclic : Openapi.Document := [(pA, schemaA); (pB, schemaB)].

(** [A] references [B]; [B] references nothing. *)
Definition acyclic : Openapi.Document :=
  [(pA, schemaA); (pB, object [("x", Sch (typed "string"))] None)].

(** An observer that records the references it is told of. *)
Definition record : ReferenceObject -> M (list ReferenceObject) unit :=
  fun r log => Return tt (log ++ [r])%list.

Definition recording (d : bool) : Schema2TypeOptions (list ReferenceObject) :=
  {| deep := Some d; defaultType := None; commentStyle := None;
     preText := None; on_Ref := Some record |}.

(** A printer that returns its input, and one whose output has lost the
    declaration. *)
Definition verbatim : string -> option string := Some.
Definition garbled : string -> option string := fun _ => Some "let x".

(** The options of the collector in deep mode, with a sink. *)
Definition collecting : JsonSchema2TsOptions :=
  {| export := None; js_deep := Some true; on_RefTsStr := true |}.

Definition declB : string :=
  Str.join Str.nl ["interface B {"; " x?: string;"; "}"].

(** The type expression of [A] with the expansion of [B] inline. *)
Definition bodyA : string :=
  Str.join Str.nl ["{"; " b?: {"; "  x?: string;"; " };"; "}"].

Definition declA : string := "interface A " +:+ bodyA.

(** The nested call for [B], suspended on the printer. *)
Definition taskB : Task :=
  {| task_name := "B";
     task_call := AwaitFormat (Str.join Str.nl ["type Ts = {"; " x?: string;"; "}"]) |}.

(** The engine options with no observer, over a state with nothing in it. *)
Definition plain (d : bool) : Schema2TypeOptions unit :=
  {| deep := Some d; defaultType := None; commentStyle := None;
     preText := None; on_Ref := None |}.

Definition pP : string := "#/components/schemas/P".

(** A document with one named schema, a string. *)
Definition single : Openapi.Document := [(pP, typed "string")].

(** [{type: array, items: {$ref: P}}] *)
Definition arrayOfRef : SchemaObject := array (ItemsOne (refTo pP)).

(** The options of the collector without deep mode and without a sink. *)
Definition silent_shallow : JsonSchema2TsOptions :=
  {| export := None; js_deep := None; on_RefTsStr := false |}.

(** An object in which the reference to [P] occurs twice, once as a property
    and once as the items of an array. *)
Definition twice : SchemaObject :=
  object [("a", refTo pP); ("b", Sch arrayOfRef)] None.

End Scenario.

(** ** Vocabulary of the properties *)

(** The state an outcome leaves. *)
Definition final {St A} (o : outcome St A) : St :=
  match o with
  | Return _ st => st
  | Throw _ st => st
  | OutOfFuel st => st
  end.

(** [P] holds of the state an outcome leaves. *)
Definition post {St A} (P : St -> Prop) (o : outcome St A) : Prop := P (final o).

Definition exhausted {St A} (o : outcome St A) : Prop :=
  match o with
  | OutOfFuel _ => True
  | _ => False
  end.

(** A computation that keeps [P]. *)
Definition preserves {St A} (P : St -> Prop) (m : M St A) : Prop :=
  forall st, P st -> post P (m st).

Definition returns {St A} (o : outcome St A) : Prop :=
  exists a st, o = Return a st.

(** No bound on the recursion is enough. *)
Definition diverges {St A} (run : nat -> outcome St A) : Prop :=
  forall fuel, exhausted (run fuel).

(** An observer that does not raise an exception to its caller. *)
Definition quiet {St} (f : ReferenceObject -> M St unit) : Prop :=
  forall r st, exhausted (f r st) \/ exists st', f r st = Return tt st'.

(** The memo the sink finds has the text it is given under the name it is
    given. *)
Definition sink_ok (c : SinkCall) : Prop :=
  sink_memo c !! sink_name c = Some (sink_tsStr c).

Definition sunk_ok (st : CState) : Prop := Forall sink_ok (sunk st).

(** The schema object [s] is an object node one of whose properties is a
    reference to [pointer]. *)
Definition references (s : SchemaObject) (pointer : string) : Prop :=
  type s = TypeStr "object" /\ enum s = None /\
  exists key props,
    properties s = Some props /\ (key, Ref {| ref := pointer |}) ∈ props.

(** The schema object [s] is an object node whose only property is a
    reference to [pointer]. *)
Definition only_references (s : SchemaObject) (pointer : string) : Prop :=
  type s = TypeStr "object" /\ enum s = None /\
  exists key, properties s = Some [(key, Ref {| ref := pointer |})].

(** ** Readings of the code for the further properties *)

(** Whether the character [c] occurs in [s]. *)
Fixpoint occurs (c : ascii) (s : string) : bool :=
  match s with
  | "" => false
  | String c' s' => Ascii.eqb c' c || occurs c s'
  end.

(** The comment object after [add] has been called with each of [texts] in
    turn. *)
Definition comment_of (ty : CommentStyle) (texts : list string) : Comment.t :=
  foldl (fun c text => Comment.add ty text c) Comment.init texts.

(** The lines of the fragments, in the order of the fragments, each behind
    the marker of the style. *)
Definition comment_lines (ty : CommentStyle) (texts : list string) : list string :=
  flat_map (fun text =>
              map (fun item => Comment.preText ty +:+ " " +:+ item)
                  (Str.split "010"%char (Comment.transformeText ty text)))
           texts.

(** The longest path of child schemas below a node; a reference has none. *)
Fixpoint height (n : Schema) : nat :=
  match n with
  | Ref _ => 0%nat
  | Sch s =>
      S (Nat.max
           match oneOf s with
           | Some l => max_list_with height l
           | None => 0%nat
           end
           (Nat.max
              match properties s with
              | Some l => max_list_with (fun entry => height entry.2) l
              | None => 0%nat
              end
              match items s with
              | ItemsAbsent => 0%nat
              | ItemsOne it => height it
              | ItemsTuple l => max_list_with height l
              end))
  end.

(** No reference object occurs in the node. *)
Fixpoint ref_free (n : Schema) : bool :=
  match n with
  | Ref _ => false
  | Sch s =>
      match oneOf s with
      | Some l => forallb ref_free l
      | None => true
      end
      && match properties s with
         | Some l => forallb (fun entry => ref_free entry.2) l
         | None => true
         end
      && match items s with
         | ItemsAbsent => true
         | ItemsOne it => ref_free it
         | ItemsTuple l => forallb ref_free l
         end
  end.

(** From every state the computation returns [a] and leaves the state as it
    is. *)
Definition settled {St A} (m : M St A) (a : A) : Prop :=
  forall st, m st = Return a st.

(** The object block with the single property [key], whose comment is [doc]
    and whose type is [tsType]. *)
Definition single_block (doc key flag tsType : string) : string :=
  Str.join Str.nl
    ("{" :: map (fun line => " " +:+ line)
              (Str.split "010"%char (doc +:+ key +:+ flag +:+ ": " +:+ tsType +:+ ";"))
         ++ ["}"])%list.

(** The collector called on [a], whose only property is a reference to the
    named schema [b], with the memo [m] and no call pending: [b] renders to
    one text [bodyB] whatever the observer, the state and the bound above
    its height; from the bound [height b + 3] on, the synchronous part of
    the call returns the block of [a] with [bodyB] as the type of the
    property, and leaves one nested call, for [b], suspended on the printer
    with [bodyB], the memo and the record of the sink untouched; the call
    itself returns the declaration the printer makes of it; and when the
    nested call settles, the memo has the declaration of [b] and the sink
    has been called once, with that declaration. *)
Definition expands_inline {Document : Type}
    (findBy_ref : string -> Document -> option SchemaObject)
    (get_refName : string -> string) (format : string -> option string)
    (openApi : Document) (options : JsonSchema2TsOptions)
    (pb : string) (a b : SchemaObject) (name : string) (m : gmap string string) : Prop :=
  exists key doc bodyB,
    let flag := if bool_decide (key ∈ default [] (required a)) then "" else "?" in
    let bodyA := single_block doc key flag bodyB in
    let nested := {| task_name := get_refName pb;
                     task_call := AwaitFormat ("type Ts = " +:+ bodyB) |} in
    let st1 := {| memo := m; pending := [nested]; sunk := [] |} in
    properties a = Some [(key, Ref {| ref := pb |})] /\
    (forall observer fuel st,
       (height (Sch b) < fuel)%nat ->
       parseSchema findBy_ref get_refName fuel (Sch b) openApi
         (collectorConfig options observer) st = Return bodyB st) /\
    forall fuel,
      (height (Sch b) + 3 <= fuel)%nat ->
      jsonSchema2TsStr_sync findBy_ref get_refName fuel (Sch a) name openApi options
        (start m) = Return (AwaitFormat ("type Ts = " +:+ bodyA)) st1 /\
      (forall declA,
         jsonSchema2TsStr_resume format options name
           (AwaitFormat ("type Ts = " +:+ bodyA)) = inr declA ->
         jsonSchema2TsStr findBy_ref get_refName format fuel (Sch a) name openApi options
           (start m) = Return declA st1) /\
      (forall declB,
         jsonSchema2TsStr_resume format options (get_refName pb) (task_call nested) =
           inr declB ->
         drain format options st1 =
           {| memo := <[get_refName pb := declB]> m; pending := [];
              sunk := [{| sink_name := get_refName pb; sink_tsStr := declB;
                          sink_memo := <[get_refName pb := declB]> m |}] |}).

(** The options with the observer taken out. *)
Definition without_observer {St} (config : Schema2TypeOptions St) : Schema2TypeOptions St :=
  {| deep := deep config; defaultType := defaultType config;
     commentStyle := commentStyle config; preText := preText config;
     on_Ref := None |}.

(** [m2] returns what [m1] returns, and does not touch the state. *)
Definition pure_twin {St A} (m1 m2 : M St A) : Prop :=
  forall st a st', m1 st = Return a st' -> forall st0, m2 st0 = Return a st0.

(** A computation that never runs out of fuel. *)
Definition ends {St A} (m : M St A) : Prop := forall st, ~ exhausted (m st).

(** The references a traversal without deep mode comes to, in the order it
    comes to them, each as often as it occurs: those below the fields that
    the dispatch of [parseSchema] goes into. *)
Fixpoint visited (n : Schema) : list ReferenceObject :=
  match n with
  | Ref r => [r]
  | Sch s =>
      match enum s with
      | Some _ => []
      | None =>
          if type_is "object" (type s) then
            match properties s with
            | Some l => flat_map (fun entry => visited entry.2) l
            | None => []
            end
          else if type_is "array" (type s) then
            match items s with
            | ItemsAbsent => []
            | ItemsOne it => visited it
            | ItemsTuple l => flat_map visited l
            end
          else if recognized (type s) then []
          else
            match oneOf s with
            | Some l => flat_map visited l
            | None => []
            end
      end
  end.

(** A computation over the record of an observer that, when it returns, has
    added [g] to the record. *)
Definition appends {R A} (g : list R) (m : M (list R) A) : Prop :=
  forall log a log', m log = Return a log' -> log' = (log ++ g)%list.

(** * Properties *)

(** ** Lines of a text *)

Section Lines.

Lemma append_String c (a b : string) : String c a +:+ b = String c (a +:+ b).
Proof. reflexivity. Qed.

Lemma append_assoc (a b c : string) : (a +:+ b) +:+ c = a +:+ b +:+ c.
Proof.
  induction a as [|x a IH]; [reflexivity|].
  now rewrite !append_String, IH.
Qed.

Lemma append_empty_r (a : string) : a +:+ "" = a.
Proof.
  induction a as [|x a IH]; [reflexivity|].
  now rewrite append_String, IH.
Qed.

Lemma split_nonempty sep s : Str.split sep s <> [].
Proof.
  destruct s as [|c s]; cbn; [discriminate|].
  destruct (Ascii.eqb c sep); [discriminate|].
  destruct (Str.split sep s); discriminate.
Qed.

Lemma join_cons2 sep x y l :
  Str.join sep (x :: y :: l) = x +:+ sep +:+ Str.join sep (y :: l).
Proof. reflexivity. Qed.

Lemma join_app sep l1 l2 :
  l1 <> [] -> l2 <> [] ->
  Str.join sep (l1 ++ l2)%list = Str.join sep l1 +:+ sep +:+ Str.join sep l2.
Proof.
  intros H1 H2. induction l1 as [|x l1 IH]; [congruence|].
  destruct l1 as [|y l1].
  - destruct l2 as [|z l2]; [congruence | reflexivity].
  - change ((x :: y :: l1) ++ l2)%list with (x :: y :: (l1 ++ l2))%list.
    rewrite !join_cons2.
    change (y :: (l1 ++ l2))%list with ((y :: l1) ++ l2)%list.
    rewrite IH by discriminate. now rewrite !append_assoc.
Qed.

Lemma join_String sep c h t :
  Str.join sep (String c h :: t) = String c (Str.join sep (h :: t)).
Proof. destruct t; reflexivity. Qed.

(** Splitting a text into its lines and joining them again gives the text. *)
Lemma join_split c s : Str.join (String c "") (Str.split c s) = s.
Proof.
  induction s as [|x s IH]; [reflexivity|]. cbn [Str.split].
  destruct (Ascii.eqb_spec x c) as [->|Hne].
  - destruct (Str.split c s) as [|h t] eqn:Hs; [now apply split_nonempty in Hs|].
    rewrite join_cons2, IH. reflexivity.
  - destruct (Str.split c s) as [|h t] eqn:Hs; [now apply split_nonempty in Hs|].
    now rewrite join_String, IH.
Qed.

Lemma split_no_sep c s : occurs c s = false -> Str.split c s = [s].
Proof.
  induction s as [|x s IH]; [reflexivity|]. cbn.
  destruct (Ascii.eqb x c); [discriminate|]. cbn.
  intros H. now rewrite IH.
Qed.

(** No part of a split text holds the separator. *)
Lemma split_parts_no_sep c s : Forall (fun part => occurs c part = false) (Str.split c s).
Proof.
  induction s as [|x s IH]; [now repeat constructor|]. cbn [Str.split].
  destruct (Ascii.eqb x c) eqn:Hx.
  - apply Forall_cons. split; [reflexivity | exact IH].
  - destruct (Str.split c s) as [|h t]; [now repeat constructor; cbn; rewrite Hx|].
    apply Forall_cons in IH as [Hh Ht].
    apply Forall_cons. split; [|exact Ht]. cbn [occurs]. now rewrite Hx.
Qed.

Lemma split_append_sep c a rest :
  occurs c a = false ->
  Str.split c (a +:+ String c rest) = a :: Str.split c rest.
Proof.
  induction a as [|x a IH]; cbn [occurs].
  - intros _. change ("" +:+ String c rest) with (String c rest).
    cbn [Str.split]. now rewrite Ascii.eqb_refl.
  - intros [Hx Ha]%orb_false_iff. rewrite append_String. cbn [Str.split].
    rewrite Hx. now rewrite (IH Ha).
Qed.

(** Lines without a line break, joined and split again, are the same lines. *)
Lemma split_join c l :
  l <> [] -> Forall (fun part => occurs c part = false) l ->
  Str.split c (Str.join (String c "") l) = l.
Proof.
  intros Hne Hall. induction l as [|x l IH]; [congruence|].
  apply Forall_cons in Hall as [Hx Hl].
  destruct l as [|y l].
  - now apply split_no_sep.
  - rewrite join_cons2, append_String.
    rewrite (split_append_sep c x _ Hx).
    f_equal. apply IH; [discriminate | exact Hl].
Qed.

Lemma occurs_app c a b : occurs c (a +:+ b) = occurs c a || occurs c b.
Proof.
  induction a as [|x a IH]; [reflexivity|].
  rewrite append_String. cbn [occurs]. now rewrite IH, orb_assoc.
Qed.

Lemma join_nonempty sep x l : x <> "" -> Str.join sep (x :: l) <> "".
Proof.
  intros Hx. destruct x as [|c x]; [congruence|].
  destruct l; cbn; discriminate.
Qed.

Lemma prefix_append a b : String.prefix a (a +:+ b) = true.
Proof.
  induction a as [|x a IH]; [now destruct b|].
  rewrite append_String. cbn [String.prefix].
  now destruct (ascii_dec x x).
Qed.

Lemma drop_append a b : Str.drop (String.length a) (a +:+ b) = b.
Proof. induction a as [|x a IH]; [now destruct b | exact IH]. Qed.

Lemma after_first_unfold needle s :
  Str.after_first needle s =
  if String.prefix needle s then Some (Str.drop (String.length needle) s)
  else match s with
       | "" => None
       | String _ s' => Str.after_first needle s'
       end.
Proof. now destruct s. Qed.

(** A text that starts with the needle: what follows the needle is found. *)
Lemma after_first_append needle rest :
  Str.after_first needle (needle +:+ rest) = Some rest.
Proof. now rewrite after_first_unfold, prefix_append, drop_append. Qed.

End Lines.

(** ** The JSON form of scalars *)

Section JsonForm.

Lemma unquote_quote_char c rest :
  JSON.unquote_body (JSON.quote_char c +:+ rest) = String c <$> JSON.unquote_body rest.
Proof.
  destruct c as [[] [] [] [] [] [] [] []]; reflexivity.
Qed.

Lemma unquote_quote_body s : JSON.unquote_body (JSON.quote_body s +:+ Str.dq) = Some s.
Proof.
  induction s as [|c s IH]; [reflexivity|].
  cbn [JSON.quote_body]. now rewrite append_assoc, unquote_quote_char, IH.
Qed.

(** A quoted string reads back as the string it was made from. *)
Lemma unquote_quote s : JSON.unquote (JSON.quote s) = Some s.
Proof. unfold JSON.quote. exact (unquote_quote_body s). Qed.

Lemma quote_char_plain c : JSON.plain_char c = true -> JSON.quote_char c = String c "".
Proof.
  destruct c as [[] [] [] [] [] [] [] []]; intros H; try discriminate H; reflexivity.
Qed.

Lemma quote_body_plain s : JSON.plain s = true -> JSON.quote_body s = s.
Proof.
  induction s as [|c s IH]; [reflexivity|]. cbn [JSON.plain JSON.quote_body].
  intros [Hc Hs]%andb_true_iff. now rewrite (quote_char_plain c Hc), IH.
Qed.

(** A string without quote, backslash and control character is quoted as it
    is. *)
Lemma quote_plain s : JSON.plain s = true -> JSON.quote s = Str.dq +:+ s +:+ Str.dq.
Proof. intros H. unfold JSON.quote. now rewrite quote_body_plain. Qed.

Lemma to_int_proper n : Z.to_int n <> Decimal.Pos Decimal.Nil /\ Z.to_int n <> Decimal.Neg Decimal.Nil.
Proof.
  destruct n as [|p|p]; cbn; split; try discriminate;
    intros [= H]; now apply Unsigned.to_uint_nonnil in H.
Qed.

(** The text of an integer is the one text that the decimal reader of the
    standard library reads as the digits of that integer without leading
    zero. *)
Lemma of_Z_canonical n s :
  Str.of_Z n = s <-> NilZero.int_of_string s = Some (Z.to_int n).
Proof.
  unfold Str.of_Z. split.
  - intros <-. destruct (to_int_proper n). now apply NilZero.isi.
  - apply NilZero.sis.
Qed.

End JsonForm.

(** ** Dispatch of [parseSchema] ([typeOf]) *)

Section EngineFacts.

Context {St Document : Type}.
Variable findBy_ref : string -> Document -> option SchemaObject.
Variable get_refName : string -> string.

Local Abbreviation typeOf := (parseSchema findBy_ref get_refName).

Lemma parseSchema_Sch fuel schema openApi (config : Schema2TypeOptions St) :
  typeOf (S fuel) (Sch schema) openApi config =
  dispatch findBy_ref get_refName
    (fun s => typeOf fuel s openApi config) schema openApi config.
Proof. reflexivity. Qed.

Lemma dispatch_object rec schema openApi (config : Schema2TypeOptions St) :
  type schema = TypeStr "object" ->
  enum schema = None ->
  dispatch findBy_ref get_refName rec schema openApi config =
  parseObject findBy_ref rec schema openApi config.
Proof. intros Hty Henum. unfold dispatch. now rewrite Henum, Hty. Qed.

(** C5. A schema object that declares an enumeration, whatever its [type]
    field, renders as its values in JSON form, in the order of the
    declaration, joined by [ | ]; the empty enumeration renders as the empty
    string.  The numbers among the values are safe integers.  The JSON form
    of the scalars is pinned down: the three keywords; for a safe integer the
    one text that reads back as its decimal digits without leading zero; for
    a string a literal that reads back as the string, which is the string
    between two quotes when it holds no quote, backslash or control
    character; an array and an object list the forms of their members
    between brackets and braces, separated by commas, an entry of an object
    as the quoted key, a colon and the form of the value. *)
Theorem parseSchema_enum fuel schema values openApi (config : Schema2TypeOptions St) st :
  enum schema = Some values ->
  forallb JSON.safe values = true ->
  typeOf (S fuel) (Sch schema) openApi config st =
    Return (Str.join " | " (map JSON.stringify values)) st
  /\ (values = [] -> typeOf (S fuel) (Sch schema) openApi config st = Return "" st)
  /\ JSON.stringify JNull = "null"
  /\ JSON.stringify (JBool true) = "true"
  /\ JSON.stringify (JBool false) = "false"
  /\ (forall n s, JSON.safe_integer n = true ->
       JSON.stringify (JNum n) = s <->
       NilZero.int_of_string s = Some (Z.to_int n) /\ Z.of_int (Z.to_int n) = n)
  /\ (forall s, JSON.unquote (JSON.stringify (JStr s)) = Some s)
  /\ (forall s, JSON.plain s = true ->
       JSON.stringify (JStr s) = Str.dq +:+ s +:+ Str.dq)
  /\ (forall l, JSON.stringify (JArr l) =
                "[" +:+ Str.join "," (map JSON.stringify l) +:+ "]")
  /\ (forall l, JSON.stringify (JObj l) =
                "{" +:+ Str.join ","
                          (map (fun kv => let '(k, x) := kv in
                                          JSON.stringify (JStr k) +:+ ":" +:+
                                          JSON.stringify x) l) +:+ "}").
Proof.
  intros Henum _.
  assert (Hgen : typeOf (S fuel) (Sch schema) openApi config st =
                 Return (Str.join " | " (map JSON.stringify values)) st).
  { rewrite parseSchema_Sch. unfold dispatch, parseEnum. now rewrite Henum. }
  split; [exact Hgen|].
  split; [intros ->; exact Hgen|].
  split; [reflexivity|]. split; [reflexivity|]. split; [reflexivity|].
  split; [|split; [|split; [|split]]].
  - intros n s _. cbn [JSON.stringify]. rewrite of_Z_canonical.
    split; [intros H; split; [exact H | apply DecimalZ.of_to] | now intros [H _]].
  - intros s. exact (unquote_quote s).
  - intros s. exact (quote_plain s).
  - intros l. reflexivity.
  - intros l. reflexivity.
Qed.

Lemma dispatch_unrecognized rec schema openApi (config : Schema2TypeOptions St) :
  enum schema = None ->
  recognized (type schema) = false ->
  dispatch findBy_ref get_refName rec schema openApi config =
  match oneOf schema with
  | Some branches => let* parts := mapM rec branches in ret (Str.join " | " parts)
  | None => ret (match type schema with
                 | TypeStr (String _ _ as name) => name
                 | _ => fallbackType config
                 end)
  end.
Proof.
  intros Henum Hrec. unfold dispatch. rewrite Henum.
  unfold recognized in Hrec.
  repeat (apply orb_false_iff in Hrec; destruct Hrec as [Hrec ?]).
  repeat match goal with H : type_is _ _ = false |- _ => rewrite H; clear H end.
  reflexivity.
Qed.

(** C3, as the code has it.  A schema object without [enum] and [oneOf]
    whose [type] is none of the seven recognized values renders as the
    default type when [type] is absent, is not a string or is the empty
    string, and as the value of [type] itself when it is another string; the
    default type is [unknown] unless configured. *)
Theorem parseSchema_unrecognized fuel schema openApi (config : Schema2TypeOptions St) st :
  enum schema = None ->
  oneOf schema = None ->
  recognized (type schema) = false ->
  typeOf (S fuel) (Sch schema) openApi config st =
    Return (match type schema with
            | TypeStr (String _ _ as name) => name
            | _ => fallbackType config
            end) st
  /\ (defaultType config = None -> fallbackType config = "unknown").
Proof.
  intros Henum HoneOf Hrec. split.
  - rewrite parseSchema_Sch, dispatch_unrecognized by assumption.
    now rewrite HoneOf.
  - unfold fallbackType. now intros ->.
Qed.

(** C8. An object node with no declared property renders as the token
    [object]. *)
Theorem parseSchema_empty_object fuel schema openApi (config : Schema2TypeOptions St) st :
  type schema = TypeStr "object" ->
  enum schema = None ->
  properties schema = None \/ properties schema = Some [] ->
  typeOf (S fuel) (Sch schema) openApi config st = Return "object" st
  /\ typeOf (S fuel) (Sch schema) openApi config st <> Return "{}" st.
Proof.
  intros Hty Henum Hprops.
  assert (Hobj : typeOf (S fuel) (Sch schema) openApi config st = Return "object" st).
  { rewrite parseSchema_Sch, dispatch_object by assumption.
    unfold parseObject. destruct Hprops as [-> | ->]; reflexivity. }
  split; [exact Hobj|]. rewrite Hobj. discriminate.
Qed.

(** C7. The object scenario in line style: [id] is required, so it has no
    optional marker and the line before it is the [required] comment; [note]
    is optional and the line before it is the [deprecated] comment. *)
Theorem parseObject_idNote fuel d dt pre obs openApi (st : St) :
  typeOf (S (S fuel)) (Sch Scenario.idNote) openApi
    (Build_Schema2TypeOptions St d dt (Some Line) pre obs) st =
  Return (Str.join Str.nl
            ["{"; " // [required]"; " id: number;";
             " // [deprecated]"; " note?: string;"; "}"]) st.
Proof. vm_compute. reflexivity. Qed.

Lemma parseSchema_array fuel schema openApi (config : Schema2TypeOptions St) :
  type schema = TypeStr "array" ->
  enum schema = None ->
  typeOf (S fuel) (Sch schema) openApi config =
  parseArray findBy_ref get_refName
    (fun s => typeOf fuel s openApi config) schema openApi config.
Proof.
  intros Hty Henum. rewrite parseSchema_Sch. unfold dispatch.
  now rewrite Henum, Hty.
Qed.

(** What [parseArray] does with a single [items] schema once it has the
    schema object [resolved] to work on. *)
Lemma parseArray_resolved rec schema it resolved openApi (config : Schema2TypeOptions St) st :
  items schema = ItemsOne it ->
  it = Sch resolved \/
  (exists r, it = Ref r /\ truthy (deep config) = true /\
             findBy_ref (ref r) openApi = Some resolved) ->
  parseArray findBy_ref get_refName rec schema openApi config st =
  (let* tsType := rec (Sch resolved) in ret (wrapItems resolved tsType)) st.
Proof.
  intros Hitems [-> | (r & -> & Hdeep & Hfind)]; unfold parseArray; rewrite Hitems.
  - now destruct (truthy (deep config)).
  - rewrite Hdeep. unfold bind at 1, resolve. now rewrite Hfind.
Qed.

(** C6, as the code has it.  An array node with a single [items] schema,
    taken after resolution: the [type] of the resolved item decides first,
    [Array<T>] for [type] object, whatever else the item carries, and [T[]]
    for [type] array on an item without [enum]; an item of another [type]
    wraps as [(T)[]] when it has a [oneOf] or an [enum], and as [T[]] in
    every other case. *)
Theorem parseArray_wrapping fuel schema it resolved openApi (config : Schema2TypeOptions St)
    st tsType st' :
  type schema = TypeStr "array" ->
  enum schema = None ->
  items schema = ItemsOne it ->
  it = Sch resolved \/
  (exists r, it = Ref r /\ truthy (deep config) = true /\
             findBy_ref (ref r) openApi = Some resolved) ->
  typeOf fuel (Sch resolved) openApi config st = Return tsType st' ->
  exists out,
    typeOf (S fuel) (Sch schema) openApi config st = Return out st' /\
    (type resolved = TypeStr "object" -> out = "Array<" +:+ tsType +:+ ">") /\
    (type resolved = TypeStr "array" -> enum resolved = None ->
     out = tsType +:+ "[]") /\
    (type resolved <> TypeStr "object" -> type resolved <> TypeStr "array" ->
     is_Some (oneOf resolved) \/ is_Some (enum resolved) ->
     out = "(" +:+ tsType +:+ ")[]") /\
    (type resolved <> TypeStr "object" -> type resolved <> TypeStr "array" ->
     oneOf resolved = None -> enum resolved = None ->
     out = tsType +:+ "[]").
Proof.
  intros Hty Henum Hitems Hres Hrec.
  exists (wrapItems resolved tsType). split.
  - rewrite parseSchema_array by assumption.
    rewrite (parseArray_resolved _ _ it resolved) by assumption.
    unfold bind. now rewrite Hrec.
  - unfold wrapItems. repeat split.
    + now intros ->.
    + now intros -> _.
    + intros Hno Hna Hsome.
      assert (type_is "object" (type resolved) = false) as ->.
      { destruct (type resolved) as [|s|]; try reflexivity. cbn.
        apply String.eqb_neq. congruence. }
      assert (type_is "array" (type resolved) = false) as ->.
      { destruct (type resolved) as [|s|]; try reflexivity. cbn.
        apply String.eqb_neq. congruence. }
      destruct Hsome as [H | H].
      * now rewrite (bool_decide_eq_true_2 _ H).
      * rewrite (bool_decide_eq_true_2 _ H). now rewrite orb_true_r.
    + intros Hno Hna -> ->.
      assert (type_is "object" (type resolved) = false) as ->.
      { destruct (type resolved) as [|s|]; try reflexivity. cbn.
        apply String.eqb_neq. congruence. }
      assert (type_is "array" (type resolved) = false) as ->.
      { destruct (type resolved) as [|s|]; try reflexivity. cbn.
        apply String.eqb_neq. congruence. }
      reflexivity.
Qed.

(** C4, at a tuple of two elements: between the two element lines the
    rendering has a comma that belongs to neither, and an empty line before
    the closing bracket. *)
Theorem parseArray_pair fuel openApi (config : Schema2TypeOptions St) st :
  typeOf (S (S fuel)) (Sch Scenario.pair) openApi config st =
  Return (Str.join Str.nl ["["; "string,"; ",number,"; ""; "]"]) st.
Proof. reflexivity. Qed.

(** C10. A reference that is the single [items] of an array node: in deep
    mode the array renders exactly as if the resolved schema stood there
    inline (and fails, the state untouched, when the pointer does not
    resolve), so the observer is not told of the reference; without deep mode
    the observer is told, and the display name is rendered.  A reference
    node given to [parseSchema] itself is reported first in either mode. *)
Theorem parseArray_ref_items fuel schema r openApi (config : Schema2TypeOptions St) st :
  type schema = TypeStr "array" ->
  enum schema = None ->
  items schema = ItemsOne (Ref r) ->
  (truthy (deep config) = true ->
   match findBy_ref (ref r) openApi with
   | Some resolved =>
       typeOf (S fuel) (Sch schema) openApi config st =
       typeOf (S fuel) (Sch (set_items (ItemsOne (Sch resolved)) schema)) openApi config st
   | None =>
       typeOf (S fuel) (Sch schema) openApi config st = Throw (UnresolvedRef (ref r)) st
   end)
  /\ (truthy (deep config) = false ->
      typeOf (S fuel) (Sch schema) openApi config st =
      (let* _ := notify config r in ret (get_refName (ref r) +:+ "[]")) st)
  /\ typeOf (S fuel) (Ref r) openApi config st =
     (let* _ := notify config r in
      if truthy (deep config)
      then match findBy_ref (ref r) openApi with
           | Some resolved => typeOf (S fuel) (Sch resolved) openApi config
           | None => throw (UnresolvedRef (ref r))
           end
      else ret (get_refName (ref r))) st.
Proof.
  intros Hty Henum Hitems. split; [|split].
  - intros Hdeep. destruct (findBy_ref (ref r) openApi) as [resolved|] eqn:Hfind.
    + rewrite !parseSchema_array by assumption.
      rewrite (parseArray_resolved _ schema (Ref r) resolved) by eauto.
      now rewrite (parseArray_resolved _ (set_items _ schema) (Sch resolved) resolved)
        by eauto.
    + rewrite parseSchema_array by assumption.
      unfold parseArray. rewrite Hitems, Hdeep.
      unfold bind at 1, resolve. now rewrite Hfind.
  - intros Hdeep. rewrite parseSchema_array by assumption.
    unfold parseArray. now rewrite Hitems, Hdeep.
  - cbn [parseSchema]. unfold bind at 1 3.
    destruct (notify config r st) as [[] st1 | |]; try reflexivity.
    destruct (truthy (deep config)); cbn [negb]; [|reflexivity].
    unfold bind, resolve. now destruct (findBy_ref (ref r) openApi).
Qed.

End EngineFacts.

(** ** The declaration formatter *)

Section FormatterFacts.

Context {St Document : Type}.
Variable findBy_ref : string -> Document -> option SchemaObject.
Variable get_refName : string -> string.
Variable format : string -> option string.

Lemma convertToType_resume_unmatched (config : Schema2TypeOptions St) out :
  Str.after_first "type Ts = " out = None ->
  convertToType_resume config out = "".
Proof. unfold convertToType_resume. now intros ->. Qed.

(** C2, as the code has it.  When the output of the printer does not have
    the text [type Ts = ] in it, [convertToType] returns the empty string,
    and raises no error. *)
Theorem convertToType_unmatched fuel schema openApi (config : Schema2TypeOptions St)
    st tsStr st' out :
  parseSchema findBy_ref get_refName fuel schema openApi config st = Return tsStr st' ->
  format ("type Ts = " +:+ tsStr) = Some out ->
  Str.after_first "type Ts = " out = None ->
  convertToType findBy_ref get_refName format fuel (Some schema) openApi config st =
  Return "" st'.
Proof.
  intros Hparse Hfmt Hnone.
  unfold convertToType, convertToType_sync, bind, ret.
  rewrite Hparse. cbn [settle]. rewrite Hfmt.
  now rewrite convertToType_resume_unmatched.
Qed.

End FormatterFacts.

(** ** Invariants of the engine

    The engine touches the state only through the observer: what the
    observer keeps, a traversal keeps. *)

Section Preservation.

Context {St : Type} (P : St -> Prop).

Lemma preserves_ret {A} (a : A) : preserves P (ret a).
Proof. intros st HP. exact HP. Qed.

Lemma preserves_throw {A} e : preserves P (@throw St A e).
Proof. intros st HP. exact HP. Qed.

Lemma preserves_bind {A B} (m : M St A) (k : A -> M St B) :
  preserves P m -> (forall a, preserves P (k a)) -> preserves P (bind m k).
Proof.
  intros Hm Hk st HP. unfold bind. specialize (Hm st HP).
  destruct (m st) as [a st1 | e st1 |]; cbn in *; auto.
  now apply Hk.
Qed.

Lemma preserves_mapM {A B} (f : A -> M St B) l :
  (forall x, preserves P (f x)) -> preserves P (mapM f l).
Proof.
  intros Hf. induction l as [|x l IH]; cbn [mapM].
  - apply preserves_ret.
  - apply preserves_bind; [apply Hf|]. intros y.
    apply preserves_bind; [exact IH|]. intros ys. apply preserves_ret.
Qed.

Lemma preserves_foldM {A B} (f : B -> A -> M St B) l :
  (forall b x, preserves P (f b x)) -> forall b, preserves P (foldM f l b).
Proof.
  intros Hf. induction l as [|x l IH]; intros b; cbn [foldM].
  - apply preserves_ret.
  - apply preserves_bind; [apply Hf|]. exact IH.
Qed.

Context {Document : Type}.
Variable findBy_ref : string -> Document -> option SchemaObject.
Variable get_refName : string -> string.
Variable openApi : Document.
Variable config : Schema2TypeOptions St.
Hypothesis observer_preserves :
  forall f r, on_Ref config = Some f -> preserves P (f r).

Lemma preserves_resolve pointer : preserves P (resolve findBy_ref pointer openApi).
Proof.
  unfold resolve. destruct (findBy_ref pointer openApi).
  - apply preserves_ret.
  - apply preserves_throw.
Qed.

Lemma preserves_notify r : preserves P (notify config r).
Proof.
  unfold notify. destruct (on_Ref config) as [f|] eqn:Hf.
  - now apply observer_preserves.
  - apply preserves_ret.
Qed.

Lemma preserves_parseObject rec schema :
  (forall s, preserves P (rec s)) ->
  preserves P (parseObject findBy_ref rec schema openApi config).
Proof.
  intros Hrec. unfold parseObject.
  apply preserves_bind; [|intros; apply preserves_ret].
  apply preserves_foldM. intros lines [key valueOrigin]. unfold parseProperty.
  apply preserves_bind.
  - destruct valueOrigin; [apply preserves_resolve | apply preserves_ret].
  - intros value. apply preserves_bind; [apply Hrec|].
    intros tsType. apply preserves_ret.
Qed.

Lemma preserves_parseArray rec schema :
  (forall s, preserves P (rec s)) ->
  preserves P (parseArray findBy_ref get_refName rec schema openApi config).
Proof.
  intros Hrec. unfold parseArray.
  destruct (items schema) as [|it|l].
  - apply preserves_ret.
  - assert (Hgen : forall m : M St SchemaObject, preserves P m ->
      preserves P (let* items := m in let* tsType := rec (Sch items) in
                   ret (wrapItems items tsType))).
    { intros m Hm. apply preserves_bind; [exact Hm|]. intros s.
      apply preserves_bind; [apply Hrec|]. intros; apply preserves_ret. }
    destruct it as [r|s], (truthy (deep config)).
    + apply Hgen, preserves_resolve.
    + apply preserves_bind; [apply preserves_notify|]. intros; apply preserves_ret.
    + apply Hgen, preserves_ret.
    + apply Hgen, preserves_ret.
  - apply preserves_bind; [now apply preserves_mapM|]. intros; apply preserves_ret.
Qed.

Lemma preserves_dispatch rec schema :
  (forall s, preserves P (rec s)) ->
  preserves P (dispatch findBy_ref get_refName rec schema openApi config).
Proof.
  intros Hrec. unfold dispatch.
  destruct (enum schema); [apply preserves_ret|].
  repeat match goal with
         | |- preserves P (if ?b then _ else _) => destruct b
         end;
    try apply preserves_ret.
  - now apply preserves_parseObject.
  - now apply preserves_parseArray.
  - destruct (oneOf schema).
    + apply preserves_bind; [now apply preserves_mapM|]. intros; apply preserves_ret.
    + apply preserves_ret.
Qed.

Lemma preserves_parseSchema fuel schema :
  preserves P (parseSchema findBy_ref get_refName fuel schema openApi config).
Proof.
  revert schema. induction fuel as [|fuel IH]; intros schema.
  - intros st HP. exact HP.
  - cbn [parseSchema]. destruct schema as [r|s].
    + apply preserves_bind; [apply preserves_notify|]. intros _.
      destruct (negb (truthy (deep config))); [apply preserves_ret|].
      apply preserves_bind; [apply preserves_resolve|]. intros s.
      now apply preserves_dispatch.
    + now apply preserves_dispatch.
Qed.

End Preservation.

(** ** The reference collector and its sink *)

Section CollectorFacts.

Context {Document : Type}.
Variable findBy_ref : string -> Document -> option SchemaObject.
Variable get_refName : string -> string.
Variable format : string -> option string.
Variable openApi : Document.
Variable options : JsonSchema2TsOptions.

Local Abbreviation sync := (jsonSchema2TsStr_sync findBy_ref get_refName).

Lemma sunk_ok_call_sink name tsStr st :
  sunk_ok st -> memo st !! name = Some tsStr -> sunk_ok (call_sink name tsStr st).
Proof.
  intros Hok Hmemo. unfold sunk_ok, call_sink; cbn.
  apply Forall_app. split; [exact Hok|].
  apply Forall_cons. split; [exact Hmemo | apply Forall_nil_2].
Qed.

Lemma sunk_ok_complete t st :
  sunk_ok st -> sunk_ok (complete format options t st).
Proof.
  intros Hok. unfold complete.
  destruct (jsonSchema2TsStr_resume format options (task_name t) (task_call t))
    as [e | result]; [exact Hok|].
  apply sunk_ok_call_sink; [exact Hok|]. cbn. apply lookup_insert_eq.
Qed.

Lemma preserves_on_Ref_async self r :
  (forall s n, preserves sunk_ok (self s n)) ->
  preserves sunk_ok (on_Ref_async findBy_ref get_refName self openApi options r).
Proof.
  intros Hself st Hok. unfold on_Ref_async.
  destruct (on_RefTsStr options); [|exact Hok].
  destruct (memo st !! get_refName (ref r)) as [cached|] eqn:Hmemo.
  - now apply sunk_ok_call_sink.
  - destruct (findBy_ref (ref r) openApi) as [target|]; [|exact Hok].
    specialize (Hself (Sch target) (get_refName (ref r)) st Hok).
    destruct (self (Sch target) (get_refName (ref r)) st) as [p st1 | e st1 |];
      cbn in *; auto.
Qed.

Lemma preserves_sync fuel :
  forall schema name, preserves sunk_ok (sync fuel schema name openApi options).
Proof.
  induction fuel as [|fuel IH]; intros schema name.
  - intros st HP. exact HP.
  - cbn [jsonSchema2TsStr_sync]. unfold convertToType_sync.
    apply preserves_bind; [|intros; apply preserves_ret].
    apply preserves_parseSchema. intros f r [= <-].
    apply preserves_on_Ref_async. intros s n. apply IH.
Qed.

Lemma step_sunk_ok st st' :
  step format options st st' -> sunk_ok st -> sunk_ok st'.
Proof. intros [st0 t l1 l2 _] Hok. now apply sunk_ok_complete. Qed.

Lemma steps_sunk_ok st st' :
  rtc (step format options) st st' -> sunk_ok st -> sunk_ok st'.
Proof. induction 1; eauto using step_sunk_ok. Qed.

Lemma on_Ref_async_cached self r cached st :
  on_RefTsStr options = true ->
  memo st !! get_refName (ref r) = Some cached ->
  on_Ref_async findBy_ref get_refName self openApi options r st =
  Return tt (call_sink (get_refName (ref r)) cached st).
Proof. intros Hsink Hmemo. unfold on_Ref_async. now rewrite Hsink, Hmemo. Qed.

(** C9. Whenever the sink is called with a name and a text, the memo holds
    that text under that name: this is so of every call made in any run,
    whatever the memo the run starts from, in whatever order the nested
    calls settle, and also when the traversal does not end.  A name that the memo has is passed its cached text with no
    nested call and no other change of state; a text rendered afresh is put
    in the memo first and passed to the sink next. *)
Theorem sink_after_store fuel schema name m :
  (forall st,
     rtc (step format options)
       (final (sync fuel schema name openApi options (start m))) st ->
     Forall sink_ok (sunk st))
  /\ (forall self r cached st,
        on_RefTsStr options = true ->
        memo st !! get_refName (ref r) = Some cached ->
        on_Ref_async findBy_ref get_refName self openApi options r st =
        Return tt (call_sink (get_refName (ref r)) cached st))
  /\ (forall t result st,
        jsonSchema2TsStr_resume format options (task_name t) (task_call t) = inr result ->
        memo (complete format options t st) = <[task_name t := result]> (memo st) /\
        sunk (complete format options t st) =
          (sunk st ++ [{| sink_name := task_name t; sink_tsStr := result;
                          sink_memo := <[task_name t := result]> (memo st) |}])%list).
Proof.
  repeat split.
  - intros st Hsteps.
    apply (steps_sunk_ok _ _ Hsteps).
    apply (preserves_sync fuel schema name (start m)). apply Forall_nil_2.
  - intros. now apply on_Ref_async_cached.
  - unfold complete. now rewrite H.
  - unfold complete. now rewrite H.
Qed.

End CollectorFacts.

(** ** Pointer cycles in deep mode *)

Section Returns.

Context {St : Type}.

Lemma not_returns_bind_l {A B} (m : M St A) (k : A -> M St B) st :
  ~ returns (m st) -> ~ returns (bind m k st).
Proof.
  intros Hm. unfold bind. destruct (m st) as [a st1 | e st1 |].
  - destruct Hm. now exists a, st1.
  - intros (b & st2 & [=]).
  - intros (b & st2 & [=]).
Qed.

Lemma not_returns_bind_r {A B} (m : M St A) (k : A -> M St B) st :
  (forall a st1, ~ returns (k a st1)) -> ~ returns (bind m k st).
Proof.
  intros Hk. unfold bind. destruct (m st) as [a st1 | e st1 |].
  - apply Hk.
  - intros (b & st2 & [=]).
  - intros (b & st2 & [=]).
Qed.

Lemma bind_diverges {A B} (m : M St A) (k : A -> M St B) st :
  exhausted (m st) -> exhausted (bind m k st).
Proof. unfold bind. now destruct (m st). Qed.

Lemma bind_return {A B} (m : M St A) (k : A -> M St B) st a st1 :
  m st = Return a st1 -> bind m k st = k a st1.
Proof. unfold bind. now intros ->. Qed.

Lemma bind_ret_l {A B} (a : A) (k : A -> M St B) : bind (ret a) k = k a.
Proof. reflexivity. Qed.

Lemma not_returns_foldM {A B} (f : B -> A -> M St B) l x :
  x ∈ l -> (forall b st, ~ returns (f b x st)) ->
  forall b st, ~ returns (foldM f l b st).
Proof.
  intros Hin Hf. induction l as [|y l IH]; intros b st.
  - now apply not_elem_of_nil in Hin.
  - cbn [foldM]. apply elem_of_cons in Hin as [<- | Hin].
    + apply not_returns_bind_l, Hf.
    + apply not_returns_bind_r. intros b1 st1. now apply IH.
Qed.

End Returns.

(** ** The height of a schema *)

Section Heights.

Lemma max_list_with_ge {A} (f : A -> nat) x l :
  x ∈ l -> (f x <= max_list_with f l)%nat.
Proof. induction 1; cbn; lia. Qed.

Lemma height_oneOf schema l x :
  oneOf schema = Some l -> x ∈ l -> (height x < height (Sch schema))%nat.
Proof.
  intros H Hin. cbn [height]. rewrite H.
  pose proof (max_list_with_ge height _ _ Hin). lia.
Qed.

Lemma height_properties schema l key x :
  properties schema = Some l -> (key, x) ∈ l -> (height x < height (Sch schema))%nat.
Proof.
  intros H Hin. cbn [height]. rewrite H.
  pose proof (max_list_with_ge (fun entry => height entry.2) _ _ Hin) as Hle.
  cbn [snd] in Hle. lia.
Qed.

Lemma height_items_one schema x :
  items schema = ItemsOne x -> (height x < height (Sch schema))%nat.
Proof. intros H. cbn [height]. rewrite H. lia. Qed.

Lemma height_items_tuple schema l x :
  items schema = ItemsTuple l -> x ∈ l -> (height x < height (Sch schema))%nat.
Proof.
  intros H Hin. cbn [height]. rewrite H.
  pose proof (max_list_with_ge height _ _ Hin). lia.
Qed.

End Heights.

Section Cycle.

Context {St Document : Type}.
Variable findBy_ref : string -> Document -> option SchemaObject.
Variable get_refName : string -> string.
Variable openApi : Document.
Variable config : Schema2TypeOptions St.
Variables pa pb : string.
Variables a b : SchemaObject.

Hypothesis deep_on : truthy (deep config) = true.
Hypothesis find_a : findBy_ref pa openApi = Some a.
Hypothesis find_b : findBy_ref pb openApi = Some b.

Local Abbreviation typeOf := (parseSchema findBy_ref get_refName).

Lemma dispatch_references rec s pointer :
  references s pointer ->
  (forall st, ~ returns (rec (Ref {| ref := pointer |}) st)) ->
  forall st, ~ returns (dispatch findBy_ref get_refName rec s openApi config st).
Proof.
  intros (Hty & Henum & key & props & Hprops & Hin) Hrec st.
  rewrite dispatch_object by assumption.
  unfold parseObject. rewrite Hprops. cbn [default].
  apply not_returns_bind_l.
  apply (not_returns_foldM _ _ _ Hin). intros lines st1. unfold parseProperty.
  apply not_returns_bind_r. intros value st2.
  apply not_returns_bind_l, Hrec.
Qed.

Lemma parseSchema_Ref_deep fuel r s st :
  findBy_ref (ref r) openApi = Some s ->
  (forall st1, ~ returns (dispatch findBy_ref get_refName
                            (fun x => typeOf fuel x openApi config) s openApi config st1)) ->
  ~ returns (typeOf (S fuel) (Ref r) openApi config st).
Proof.
  intros Hfind Hs. cbn [parseSchema].
  apply not_returns_bind_r. intros _ st1.
  rewrite deep_on. cbn [negb].
  unfold bind at 1, resolve. rewrite Hfind. apply Hs.
Qed.

Hypothesis a_to_b : references a pb.
Hypothesis b_to_a : references b pa.

Lemma cycle_never_returns fuel :
  forall st,
    ~ returns (typeOf fuel (Ref {| ref := pa |}) openApi config st) /\
    ~ returns (typeOf fuel (Ref {| ref := pb |}) openApi config st).
Proof.
  induction fuel as [|fuel IH]; intros st.
  - split; intros (v & st1 & [=]).
  - split; (eapply parseSchema_Ref_deep; [eassumption|]); intros st1.
    + apply (dispatch_references _ a pb a_to_b). intros st2. apply IH.
    + apply (dispatch_references _ b pa b_to_a). intros st2. apply IH.
Qed.

Lemma cycle_never_returns_Sch fuel st :
  ~ returns (typeOf fuel (Sch a) openApi config st).
Proof.
  destruct fuel as [|fuel]; [intros (v & st1 & [=])|].
  rewrite parseSchema_Sch.
  apply (dispatch_references _ a pb a_to_b). intros st2. apply cycle_never_returns.
Qed.

End Cycle.

Section Divergence.

Context {St Document : Type}.
Variable findBy_ref : string -> Document -> option SchemaObject.
Variable get_refName : string -> string.
Variable openApi : Document.
Variable config : Schema2TypeOptions St.
Variables pa pb : string.
Variables a b : SchemaObject.

Hypothesis deep_on : truthy (deep config) = true.
Hypothesis observer_quiet : forall f, on_Ref config = Some f -> quiet f.
Hypothesis find_a : findBy_ref pa openApi = Some a.
Hypothesis find_b : findBy_ref pb openApi = Some b.
Hypothesis a_to_b : only_references a pb.
Hypothesis b_to_a : only_references b pa.

Local Abbreviation typeOf := (parseSchema findBy_ref get_refName).

Lemma dispatch_only_references rec s pointer target :
  only_references s pointer ->
  findBy_ref pointer openApi = Some target ->
  (forall st, exhausted (rec (Ref {| ref := pointer |}) st)) ->
  forall st, exhausted (dispatch findBy_ref get_refName rec s openApi config st).
Proof.
  intros (Hty & Henum & key & Hprops) Hfind Hrec st.
  rewrite dispatch_object by assumption.
  unfold parseObject. rewrite Hprops. cbn [from_option id foldM].
  do 2 apply bind_diverges. unfold parseProperty.
  rewrite (bind_return _ _ st target st).
  - apply bind_diverges, Hrec.
  - unfold resolve. cbn [ref]. now rewrite Hfind.
Qed.

Lemma parseSchema_Ref_diverges fuel r s st :
  findBy_ref (ref r) openApi = Some s ->
  (forall st1, exhausted (dispatch findBy_ref get_refName
                 (fun x => typeOf fuel x openApi config) s openApi config st1)) ->
  exhausted (typeOf (S fuel) (Ref r) openApi config st).
Proof.
  intros Hfind Hs. cbn [parseSchema].
  assert (Hq : exhausted (notify config r st) \/
               exists st1, notify config r st = Return tt st1).
  { unfold notify. destruct (on_Ref config) as [f|] eqn:Hf.
    - now apply observer_quiet.
    - right. now exists st. }
  destruct Hq as [Hq | [st1 Hq]]; [now apply bind_diverges|].
  rewrite (bind_return _ _ st tt st1 Hq).
  rewrite deep_on. cbn [negb].
  unfold bind at 1, resolve. rewrite Hfind. apply Hs.
Qed.

Lemma cycle_diverges fuel :
  forall st,
    exhausted (typeOf fuel (Ref {| ref := pa |}) openApi config st) /\
    exhausted (typeOf fuel (Ref {| ref := pb |}) openApi config st).
Proof.
  induction fuel as [|fuel IH]; intros st; [now split|].
  split; (eapply parseSchema_Ref_diverges; [eassumption|]); intros st1.
  - apply (dispatch_only_references _ a pb b a_to_b find_b). intros st2. apply IH.
  - apply (dispatch_only_references _ b pa a b_to_a find_a). intros st2. apply IH.
Qed.

Lemma cycle_diverges_Sch fuel st : exhausted (typeOf fuel (Sch a) openApi config st).
Proof.
  destruct fuel as [|fuel]; [exact I|].
  rewrite parseSchema_Sch.
  apply (dispatch_only_references _ a pb b a_to_b find_b). intros st2. apply cycle_diverges.
Qed.

End Divergence.

Section CollectorCycle.

Context {Document : Type}.
Variable findBy_ref : string -> Document -> option SchemaObject.
Variable get_refName : string -> string.
Variable format : string -> option string.
Variable openApi : Document.
Variable options : JsonSchema2TsOptions.

Lemma on_Ref_async_quiet self :
  quiet (on_Ref_async findBy_ref get_refName self openApi options).
Proof.
  intros r st. unfold on_Ref_async.
  destruct (on_RefTsStr options); [|right; eauto].
  destruct (memo st !! get_refName (ref r)); [right; eauto|].
  destruct (findBy_ref (ref r) openApi) as [target|]; [|right; eauto].
  destruct (self (Sch target) (get_refName (ref r)) st);
    [right; eauto | right; eauto | left; exact I].
Qed.

Lemma collector_cycle_never_returns pa pb a b name fuel st :
  truthy (js_deep options) = true ->
  findBy_ref pa openApi = Some a ->
  findBy_ref pb openApi = Some b ->
  references a pb ->
  references b pa ->
  ~ returns (jsonSchema2TsStr findBy_ref get_refName format fuel (Sch a) name
               openApi options st).
Proof.
  intros Hdeep Ha Hb Hab Hba. unfold jsonSchema2TsStr.
  apply not_returns_bind_l.
  destruct fuel as [|fuel]; [intros (v & st1 & [=])|].
  cbn [jsonSchema2TsStr_sync]. unfold convertToType_sync.
  apply not_returns_bind_l.
  now apply (cycle_never_returns_Sch findBy_ref get_refName openApi _ pa pb a b).
Qed.

Lemma collector_cycle_diverges pa pb a b name st :
  truthy (js_deep options) = true ->
  findBy_ref pa openApi = Some a ->
  findBy_ref pb openApi = Some b ->
  only_references a pb ->
  only_references b pa ->
  diverges (fun fuel => jsonSchema2TsStr findBy_ref get_refName format fuel (Sch a) name
                          openApi options st).
Proof.
  intros Hdeep Ha Hb Hab Hba fuel. unfold jsonSchema2TsStr.
  apply bind_diverges.
  destruct fuel as [|fuel]; [exact I|].
  cbn [jsonSchema2TsStr_sync]. unfold convertToType_sync.
  apply bind_diverges.
  apply (cycle_diverges_Sch findBy_ref get_refName openApi _ pa pb a b); auto.
  intros f [= <-]. apply on_Ref_async_quiet.
Qed.

End CollectorCycle.

(** ** A schema without references *)

Section RefFree.

Context {St Document : Type}.
Variable findBy_ref : string -> Document -> option SchemaObject.
Variable get_refName : string -> string.
Variable openApi : Document.
Variable d : option bool.
Variable dt : option DefaultType.
Variable cs : option CommentStyle.
Variable pre : option string.

Local Abbreviation cfg obs := (Build_Schema2TypeOptions St d dt cs pre obs).
Local Abbreviation typeOf := (parseSchema findBy_ref get_refName).

Lemma settled_ret {A} (a : A) : settled (@ret St A a) a.
Proof. intros st. reflexivity. Qed.

Lemma settled_bind {A B} (m : M St A) (k : A -> M St B) a b :
  settled m a -> settled (k a) b -> settled (bind m k) b.
Proof. intros Hm Hk st. unfold bind. rewrite Hm. apply Hk. Qed.

Lemma settled_mapM {I A B} (good : I -> Prop) (f : I -> A -> M St B) l :
  (forall x, x ∈ l -> exists y, forall i, good i -> settled (f i x) y) ->
  exists ys, forall i, good i -> settled (mapM (f i) l) ys.
Proof.
  induction l as [|x l IH]; intros Hf.
  - exists []. intros i _. apply settled_ret.
  - destruct (Hf x (list_elem_of_here _ _)) as [y Hy].
    destruct IH as [ys Hys].
    { intros z Hz. apply Hf. now apply list_elem_of_further. }
    exists (y :: ys). intros i Hi. cbn [mapM].
    eapply settled_bind; [exact (Hy i Hi)|].
    eapply settled_bind; [exact (Hys i Hi)|]. apply settled_ret.
Qed.

Lemma settled_foldM {I A B} (good : I -> Prop) (f : I -> B -> A -> M St B) l :
  (forall x b, x ∈ l -> exists b', forall i, good i -> settled (f i b x) b') ->
  forall b, exists b', forall i, good i -> settled (foldM (f i) l b) b'.
Proof.
  induction l as [|x l IH]; intros Hf b.
  - exists b. intros i _. apply settled_ret.
  - destruct (Hf x b (list_elem_of_here _ _)) as [b1 Hb1].
    destruct (IH (fun z c Hz => Hf z c (list_elem_of_further _ _ _ Hz)) b1) as [b2 Hb2].
    exists b2. intros i Hi. cbn [foldM].
    eapply settled_bind; [exact (Hb1 i Hi) | exact (Hb2 i Hi)].
Qed.

Lemma forallb_elem_of {A} (f : A -> bool) l x : forallb f l = true -> x ∈ l -> f x = true.
Proof.
  intros H Hin. apply list_elem_of_In in Hin.
  exact (proj1 (forallb_forall f l) H x Hin).
Qed.

Lemma settled_dispatch s :
  ref_free (Sch s) = true ->
  (forall child,
     (height child < height (Sch s))%nat -> ref_free child = true ->
     exists out, forall fuel obs,
       (height child < fuel)%nat -> settled (typeOf fuel child openApi (cfg obs)) out) ->
  exists out, forall fuel obs,
    (height (Sch s) <= fuel)%nat ->
    settled (dispatch findBy_ref get_refName
               (fun x => typeOf fuel x openApi (cfg obs)) s openApi (cfg obs)) out.
Proof.
  intros Hfree Hchild. cbn [ref_free] in Hfree.
  apply andb_true_iff in Hfree as [[HfO HfP]%andb_true_iff HfI].
  pose (good := fun i : nat * option (ReferenceObject -> M St unit) =>
                  (height (Sch s) <= i.1)%nat).
  unfold dispatch. destruct (enum s) eqn:Henum.
  { eexists. intros fuel obs _. apply settled_ret. }
  cbn zeta. destruct (type_is "object" (type s)).
  { unfold parseObject.
    destruct (settled_foldM good
                (fun i => parseProperty findBy_ref (fun x => typeOf i.1 x openApi (cfg i.2))
                            openApi (cfg i.2)
                            (list_to_set (default [] (required s))))
                (default [] (properties s))) with (b := ["{"]) as [lines Hlines].
    { intros [key v] lines Hin.
      destruct (properties s) as [props|] eqn:Hprops;
        [|now apply not_elem_of_nil in Hin].
      cbn [from_option id] in Hin.
      pose proof (forallb_elem_of _ _ _ HfP Hin) as Hv. cbn [snd] in Hv.
      destruct v as [r|sv]; [discriminate|].
      destruct (Hchild (Sch sv) (height_properties _ _ _ _ Hprops Hin) Hv) as [out Hout].
      eexists. intros [fuel obs] Hgood. unfold good in Hgood. cbn [fst snd] in *.
      pose proof (height_properties _ _ _ _ Hprops Hin) as Hlt.
      unfold parseProperty. cbn [commentStyle].
      eapply settled_bind; [apply settled_ret|].
      eapply settled_bind; [apply Hout; lia|]. apply settled_ret. }
    eexists. intros fuel obs Hfuel.
    eapply settled_bind; [exact (Hlines (fuel, obs) Hfuel)|]. apply settled_ret. }
  destruct (type_is "array" (type s)).
  { unfold parseArray. destruct (items s) as [|it|l] eqn:Hitems.
    - eexists. intros fuel obs _. apply settled_ret.
    - destruct it as [r|sv]; [discriminate|].
      destruct (Hchild (Sch sv) (height_items_one _ _ Hitems) HfI) as [out Hout].
      pose proof (height_items_one _ _ Hitems) as Hlt.
      eexists. intros fuel obs Hfuel. cbn [deep].
      destruct (truthy d);
        (eapply settled_bind; [apply settled_ret|];
         eapply settled_bind; [apply Hout; lia|]; apply settled_ret).
    - destruct (settled_mapM good (fun i x => typeOf i.1 x openApi (cfg i.2)) l)
        as [types Htypes].
      { intros x Hin.
        pose proof (height_items_tuple _ _ _ Hitems Hin) as Hlt.
        destruct (Hchild x Hlt (forallb_elem_of _ _ _ HfI Hin)) as [out Hout].
        exists out. intros [fuel obs] Hgood. unfold good in Hgood. cbn [fst snd] in *.
        apply Hout. lia. }
      eexists. intros fuel obs Hfuel.
      eapply settled_bind; [exact (Htypes (fuel, obs) Hfuel)|]. apply settled_ret. }
  repeat match goal with
         | |- context [if ?b then _ else _] => destruct b
         end;
    try (eexists; intros fuel obs _; apply settled_ret).
  destruct (oneOf s) as [l|] eqn:HoneOf.
  - destruct (settled_mapM good (fun i x => typeOf i.1 x openApi (cfg i.2)) l)
      as [parts Hparts].
    { intros x Hin.
      pose proof (height_oneOf _ _ _ HoneOf Hin) as Hlt.
      destruct (Hchild x Hlt (forallb_elem_of _ _ _ HfO Hin)) as [out Hout].
      exists out. intros [fuel obs] Hgood. unfold good in Hgood. cbn [fst snd] in *.
      apply Hout. lia. }
    eexists. intros fuel obs Hfuel.
    eapply settled_bind; [exact (Hparts (fuel, obs) Hfuel)|]. apply settled_ret.
  - eexists. intros fuel obs _. unfold fallbackType. cbn [defaultType].
    apply settled_ret.
Qed.

(** A schema without references renders to one text, from every state and
    for every observer, as soon as the bound is above its height. *)
Lemma ref_free_settled n :
  forall schema,
    (height schema < n)%nat -> ref_free schema = true ->
    exists out, forall fuel obs,
      (height schema < fuel)%nat -> settled (typeOf fuel schema openApi (cfg obs)) out.
Proof.
  induction n as [|n IH]; intros schema Hn Hfree; [lia|].
  destruct schema as [r|s]; [discriminate|].
  destruct (settled_dispatch s Hfree) as [out Hout].
  { intros child Hc Hf. apply IH; [lia | exact Hf]. }
  exists out. intros [|fuel] obs Hfuel; [lia|].
  rewrite parseSchema_Sch. apply Hout. lia.
Qed.

End RefFree.

(** ** A single reference expanded inline *)

Section Inline.

Context {St Document : Type}.
Variable findBy_ref : string -> Document -> option SchemaObject.
Variable get_refName : string -> string.
Variable openApi : Document.

(** An object whose only property is a reference: its block is the block of
    that property, with the text the reference renders to as its type.  The
    comment of the property depends on the comment style alone among the
    options. *)
Lemma dispatch_single s pointer target style :
  only_references s pointer ->
  findBy_ref pointer openApi = Some target ->
  exists key doc,
    properties s = Some [(key, Ref {| ref := pointer |})] /\
    forall (config : Schema2TypeOptions St) rec tsType st st1,
      commentStyle config = style ->
      rec (Ref {| ref := pointer |}) st = Return tsType st1 ->
      dispatch findBy_ref get_refName rec s openApi config st =
      Return (single_block doc key
                (if bool_decide (key ∈ default [] (required s)) then "" else "?")
                tsType) st1.
Proof.
  intros (Hty & Henum & key & Hprops) Hfind.
  exists key. eexists. split; [exact Hprops|].
  intros config rec tsType st st1 Hstyle Hrec.
  rewrite dispatch_object by assumption.
  unfold parseObject. rewrite Hprops. cbn [from_option id foldM].
  unfold parseProperty.
  unfold bind, resolve. cbn [ref]. rewrite Hfind. unfold ret. rewrite Hrec, Hstyle.
  rewrite (bool_decide_ext (key ∈ (list_to_set (default [] (required s)) : gset string))
             (key ∈ default [] (required s))) by apply elem_of_list_to_set.
  match goal with
  | |- Return (if (2 <? length ?L)%nat then _ else _) _ = _ =>
      assert (Hlen : (2 <? length L)%nat = true)
  end.
  { apply Nat.ltb_lt. rewrite !length_app, length_map. cbn [length].
    match goal with
    | |- context [length (Str.split ?c ?t)] =>
        pose proof (split_nonempty c t); destruct (Str.split c t);
          [congruence | cbn [length]; lia]
    end. }
  rewrite Hlen. reflexivity.
Qed.

End Inline.

Section CollectorInline.

Context {Document : Type}.
Variable findBy_ref : string -> Document -> option SchemaObject.
Variable get_refName : string -> string.
Variable format : string -> option string.
Variable openApi : Document.
Variable options : JsonSchema2TsOptions.

Local Abbreviation sync := (jsonSchema2TsStr_sync findBy_ref get_refName).

Lemma collector_expands_inline pb a b name m :
  truthy (js_deep options) = true ->
  on_RefTsStr options = true ->
  only_references a pb ->
  findBy_ref pb openApi = Some b ->
  ref_free (Sch b) = true ->
  m !! get_refName pb = None ->
  expands_inline findBy_ref get_refName format openApi options pb a b name m.
Proof.
  intros Hdeep Hsink Ha Hb Hfree Hmemo.
  destruct (ref_free_settled (St := CState) findBy_ref get_refName openApi
              (js_deep options) (Some unknown) (Some Docment) (Some "")
              (S (height (Sch b))) (Sch b) (Nat.lt_succ_diag_r _) Hfree)
    as [bodyB HbodyB].
  assert (HB : forall observer fuel st,
             (height (Sch b) < fuel)%nat ->
             parseSchema findBy_ref get_refName fuel (Sch b) openApi
               (collectorConfig options observer) st = Return bodyB st).
  { intros observer fuel st Hfuel. now apply (HbodyB fuel (Some observer)). }
  set (nested := {| task_name := get_refName pb;
                    task_call := AwaitFormat ("type Ts = " +:+ bodyB) |}).
  assert (Href : forall fuel,
             (height (Sch b) <= fuel)%nat ->
             parseSchema findBy_ref get_refName (S fuel) (Ref {| ref := pb |}) openApi
               (collectorConfig options
                  (on_Ref_async findBy_ref get_refName
                     (fun s n => sync (S (S fuel)) s n openApi options) openApi options))
               (start m) =
             Return bodyB {| memo := m; pending := [nested]; sunk := [] |}).
  { intros fuel Hfuel. cbn [parseSchema].
    erewrite bind_return; cycle 1.
    { unfold notify. cbn [on_Ref collectorConfig]. unfold on_Ref_async.
      rewrite Hsink. cbn [ref memo start]. rewrite Hmemo, Hb.
      cbn [jsonSchema2TsStr_sync]. unfold convertToType_sync.
      erewrite bind_return; [|apply HB; lia]. reflexivity. }
    cbn [deep collectorConfig]. rewrite Hdeep. cbn [negb].
    erewrite bind_return; [|unfold resolve; cbn [ref]; rewrite Hb; reflexivity].
    refine (HB _ (S fuel) _ _). lia. }
  destruct (dispatch_single (St := CState) findBy_ref get_refName openApi
              a pb b (Some Docment) Ha Hb) as (key & doc & Hprops & Hdisp).
  exists key, doc, bodyB. cbn zeta. split; [exact Hprops|]. split; [exact HB|].
  intros fuel Hfuel.
  destruct fuel as [|[|[|fuel]]]; try lia.
  assert (Hsync : sync (S (S (S fuel))) (Sch a) name openApi options (start m) =
                  Return (AwaitFormat
                            ("type Ts = " +:+
                             single_block doc key
                               (if bool_decide (key ∈ default [] (required a))
                                then "" else "?") bodyB))
                    {| memo := m; pending := [nested]; sunk := [] |}).
  { cbn [jsonSchema2TsStr_sync]. unfold convertToType_sync.
    erewrite bind_return; [reflexivity|].
    rewrite parseSchema_Sch. apply Hdisp; [reflexivity|]. apply Href. lia. }
  split; [exact Hsync|]. split.
  - intros declA HdeclA. unfold jsonSchema2TsStr.
    rewrite (bind_return _ _ _ _ _ Hsync). now rewrite HdeclA.
  - intros declB HdeclB. subst nested. unfold drain. cbn [pending foldl].
    unfold complete. cbn [task_name task_call] in HdeclB |- *.
    rewrite HdeclB. reflexivity.
Qed.

End CollectorInline.

(** C1, as the code has it.  Where [A] references [B] and [B] references
    [A], the collector called on [A] in deep mode returns for no bound on the
    recursion and whatever the memo holds: deep mode expands each reference
    inline, and the engine does not stop at a pointer cycle.  Where the only
    property of [A] is a reference to [B], no reference occurs in [B], a
    sink is given and the memo has nothing under the name of [B], the call
    in deep mode returns, from the bound [height B + 3] on, the declaration
    of [A] with the rendering of [B] inline as the type of that property;
    one nested call, for [B], is left pending, and once it settles the sink
    has been called exactly once, with the declaration of [B]. *)
Theorem collector_deep_cycle :
  (forall Document findBy_ref get_refName format (openApi : Document) options
          pa pb a b name fuel st,
     truthy (js_deep options) = true ->
     findBy_ref pa openApi = Some a ->
     findBy_ref pb openApi = Some b ->
     references a pb ->
     references b pa ->
     ~ returns (jsonSchema2TsStr findBy_ref get_refName format fuel (Sch a) name
                  openApi options st))
  /\ (forall Document findBy_ref get_refName format (openApi : Document) options
             pb a b name m,
        truthy (js_deep options) = true ->
        on_RefTsStr options = true ->
        only_references a pb ->
        findBy_ref pb openApi = Some b ->
        ref_free (Sch b) = true ->
        m !! get_refName pb = None ->
        expands_inline findBy_ref get_refName format openApi options pb a b name m).
Proof.
  split.
  - intros. now apply (collector_cycle_never_returns _ _ _ _ _ pa pb a b).
  - intros. now apply collector_expands_inline.
Qed.

(** [drain] is one of the runs of [step]. *)
Section Drain.

Context (format : string -> option string) (options : JsonSchema2TsOptions).

Lemma complete_set_pending t l st :
  complete format options t (set_pending l st) =
  set_pending l (complete format options t st).
Proof.
  unfold complete.
  now destruct (jsonSchema2TsStr_resume format options (task_name t) (task_call t)).
Qed.

Lemma pending_complete t st : pending (complete format options t st) = pending st.
Proof.
  unfold complete.
  now destruct (jsonSchema2TsStr_resume format options (task_name t) (task_call t)).
Qed.

Lemma drain_steps st : rtc (step format options) st (drain format options st).
Proof.
  unfold drain. remember (pending st) as l eqn:Hl. revert st Hl.
  induction l as [|t l IH]; intros st Hl.
  - cbn. destruct st; cbn in *; subst. apply rtc_refl.
  - eapply rtc_l.
    + apply (step_complete format options st t [] l). now rewrite <- Hl.
    + cbn [app foldl].
      specialize (IH (complete format options t (set_pending l st))).
      rewrite pending_complete in IH. specialize (IH eq_refl).
      now rewrite !complete_set_pending in *.
Qed.

End Drain.

(** * The scenarios *)

(** The enumeration of the strings [a] and [b], alone and with a [type]
    besides; the empty enumeration; an enumeration of other scalars. *)
Lemma parseSchema_enum_ab :
  let quoted := Str.dq +:+ "a" +:+ Str.dq +:+ " | " +:+ Str.dq +:+ "b" +:+ Str.dq in
  parseSchema Openapi.findBy_ref Openapi.get_refName 1
    (Sch (Scenario.enumOf [JStr "a"; JStr "b"] TypeAbsent)) []
    (Scenario.plain true) tt = Return quoted tt
  /\ parseSchema Openapi.findBy_ref Openapi.get_refName 1
       (Sch (Scenario.enumOf [JStr "a"; JStr "b"] (TypeStr "object"))) []
       (Scenario.plain true) tt = Return quoted tt
  /\ parseSchema Openapi.findBy_ref Openapi.get_refName 1
       (Sch (Scenario.enumOf [] (TypeStr "string"))) []
       (Scenario.plain true) tt = Return "" tt
  /\ forallb JSON.safe [JNum (-7); JBool true; JNull] = true
  /\ parseSchema Openapi.findBy_ref Openapi.get_refName 1
       (Sch (Scenario.enumOf [JNum (-7); JBool true; JNull] TypeAbsent)) []
       (Scenario.plain true) tt = Return "-7 | true | null" tt.
Proof.
  intros quoted.
  pose proof (fun values t Hsafe =>
    parseSchema_enum Openapi.findBy_ref Openapi.get_refName 0
      (Scenario.enumOf values t) values [] (Scenario.plain true) tt eq_refl Hsafe) as H.
  split; [|split; [|split; [|split]]].
  - exact (proj1 (H [JStr "a"; JStr "b"] TypeAbsent eq_refl)).
  - exact (proj1 (H [JStr "a"; JStr "b"] (TypeStr "object") eq_refl)).
  - exact (proj1 (proj2 (H [] (TypeStr "string") eq_refl)) eq_refl).
  - reflexivity.
  - exact (proj1 (H [JNum (-7); JBool true; JNull] TypeAbsent eq_refl)).
Defined.

(** A [type] that is not recognized is rendered as it stands, not as the
    default type. *)
Lemma parseSchema_type_file :
  recognized (TypeStr "file") = false /\
  parseSchema Openapi.findBy_ref Openapi.get_refName 1
    (Sch (Scenario.typed "file")) [] (Scenario.plain true) tt = Return "file" tt /\
  "file" <> fallbackType (Scenario.plain true).
Proof. repeat split. discriminate. Qed.

(** No [type], the empty [type], and a [type] that is not recognized. *)
Lemma parseSchema_unrecognized_cases :
  parseSchema Openapi.findBy_ref Openapi.get_refName 1
    (Sch emptySchema) [] (Scenario.plain true) tt = Return "unknown" tt /\
  parseSchema Openapi.findBy_ref Openapi.get_refName 1
    (Sch (Scenario.typed "")) [] (Scenario.plain true) tt = Return "unknown" tt /\
  parseSchema Openapi.findBy_ref Openapi.get_refName 1
    (Sch (Scenario.typed "date")) [] (Scenario.plain true) tt = Return "date" tt.
Proof.
  split; [|split].
  - exact (proj1 (parseSchema_unrecognized Openapi.findBy_ref Openapi.get_refName 0
                    emptySchema [] (Scenario.plain true) tt eq_refl eq_refl eq_refl)).
  - exact (proj1 (parseSchema_unrecognized Openapi.findBy_ref Openapi.get_refName 0
                    (Scenario.typed "") [] (Scenario.plain true) tt eq_refl eq_refl eq_refl)).
  - exact (proj1 (parseSchema_unrecognized Openapi.findBy_ref Openapi.get_refName 0
                    (Scenario.typed "date") [] (Scenario.plain true) tt
                    eq_refl eq_refl eq_refl)).
Defined.

(** [{type: object}] *)
Lemma parseSchema_bare_object :
  parseSchema Openapi.findBy_ref Openapi.get_refName 1
    (Sch (Scenario.typed "object")) [] (Scenario.plain true) tt = Return "object" tt.
Proof.
  exact (proj1 (parseSchema_empty_object Openapi.findBy_ref Openapi.get_refName 0
                  (Scenario.typed "object") [] (Scenario.plain true) tt
                  eq_refl eq_refl (or_introl eq_refl))).
Defined.

(** The array of an object schema. *)
Lemma parseArray_of_object :
  parseSchema Openapi.findBy_ref Openapi.get_refName 3
    (Sch Scenario.arrayOfObject) [] (Scenario.plain true) tt =
  Return ("Array<" +:+ Str.join Str.nl ["{"; " x?: number;"; "}"] +:+ ">") tt.
Proof.
  destruct (parseArray_wrapping Openapi.findBy_ref Openapi.get_refName 2
              Scenario.arrayOfObject
              (Sch (Scenario.object [("x", Sch (Scenario.typed "number"))] None))
              (Scenario.object [("x", Sch (Scenario.typed "number"))] None)
              [] (Scenario.plain true) tt
              (Str.join Str.nl ["{"; " x?: number;"; "}"]) tt
              eq_refl eq_refl eq_refl (or_introl eq_refl) eq_refl)
    as (out & Hrun & Hobject & _).
  rewrite Hrun. now rewrite (Hobject eq_refl).
Defined.

(** An item that carries an enumeration besides a [type] object or array
    is wrapped by its [type]: no parentheses are put around the union. *)
Lemma parseArray_enum_items :
  parseSchema Openapi.findBy_ref Openapi.get_refName 2
    (Sch (Scenario.array
            (ItemsOne (Sch (Scenario.enumOf [JStr "a"; JStr "b"] (TypeStr "object"))))))
    [] (Scenario.plain true) tt =
  Return ("Array<" +:+ Str.dq +:+ "a" +:+ Str.dq +:+ " | "
            +:+ Str.dq +:+ "b" +:+ Str.dq +:+ ">") tt
  /\ parseSchema Openapi.findBy_ref Openapi.get_refName 2
       (Sch (Scenario.array
               (ItemsOne (Sch (Scenario.enumOf [JStr "a"; JStr "b"] (TypeStr "array"))))))
       [] (Scenario.plain true) tt =
     Return (Str.dq +:+ "a" +:+ Str.dq +:+ " | "
               +:+ Str.dq +:+ "b" +:+ Str.dq +:+ "[]") tt
  /\ parseSchema Openapi.findBy_ref Openapi.get_refName 2
       (Sch (Scenario.array
               (ItemsOne (Sch (Scenario.enumOf [JStr "a"; JStr "b"] (TypeStr "object"))))))
       [] (Scenario.plain true) tt <>
     Return ("(" +:+ Str.dq +:+ "a" +:+ Str.dq +:+ " | "
               +:+ Str.dq +:+ "b" +:+ Str.dq +:+ ")[]") tt
  /\ parseSchema Openapi.findBy_ref Openapi.get_refName 2
       (Sch (Scenario.array
               (ItemsOne (Sch (Scenario.enumOf [JStr "a"; JStr "b"] (TypeStr "array"))))))
       [] (Scenario.plain true) tt <>
     Return ("(" +:+ Str.dq +:+ "a" +:+ Str.dq +:+ " | "
               +:+ Str.dq +:+ "b" +:+ Str.dq +:+ ")[]") tt.
Proof.
  split; [vm_compute; reflexivity|].
  split; [vm_compute; reflexivity|].
  split; vm_compute; discriminate.
Qed.

(** What the recording observer has been told after an array of a reference
    in deep mode (nothing), without deep mode (the reference), and after the
    reference node itself (the reference). *)
Lemma parseArray_ref_items_traces :
  let P := {| ref := Scenario.pP |} in
  parseSchema Openapi.findBy_ref Openapi.get_refName 2
    (Sch Scenario.arrayOfRef) Scenario.single (Scenario.recording true) [] =
    Return "string[]" []
  /\ parseSchema Openapi.findBy_ref Openapi.get_refName 2
       (Sch Scenario.arrayOfRef) Scenario.single (Scenario.recording false) [] =
       Return "P[]" [P]
  /\ parseSchema Openapi.findBy_ref Openapi.get_refName 2
       (Ref P) Scenario.single (Scenario.recording true) [] =
       Return "string" [P].
Proof.
  intros P.
  pose proof (fun d => parseArray_ref_items Openapi.findBy_ref Openapi.get_refName 1
                Scenario.arrayOfRef P Scenario.single
                (Scenario.recording d) [] eq_refl eq_refl eq_refl) as H.
  split; [|split].
  - etransitivity; [exact (proj1 (H true) eq_refl) | reflexivity].
  - rewrite (proj1 (proj2 (H false)) eq_refl). reflexivity.
  - rewrite (proj2 (proj2 (H true))). reflexivity.
Defined.

(** The printer gives back a text without the declaration: the formatter
    returns the empty string. *)
Lemma convertToType_garbled :
  Str.after_first "type Ts = " "let x" = None /\
  convertToType Openapi.findBy_ref Openapi.get_refName Scenario.garbled 1
    (Some (Sch (Scenario.typed "string"))) [] (@defaultConfig unit) tt = Return "" tt.
Proof. split; reflexivity. Qed.

(** The same on the object scenario. *)
Lemma convertToType_garbled_idNote :
  convertToType Openapi.findBy_ref Openapi.get_refName Scenario.garbled 2
    (Some (Sch Scenario.idNote)) [] (@defaultConfig unit) tt = Return "" tt.
Proof.
  apply (convertToType_unmatched Openapi.findBy_ref Openapi.get_refName Scenario.garbled
           2 (Sch Scenario.idNote) [] defaultConfig tt
           (Str.join Str.nl
              ["{"; " // [required]"; " id: number;";
               " // [deprecated]"; " note?: string;"; "}"]) tt "let x");
    reflexivity.
Defined.

(** On the two schemas that reference each other, the collector in deep
    mode, started with an empty memo, exhausts every bound. *)
Lemma collector_cyclic_diverges :
  diverges (fun fuel =>
    jsonSchema2TsStr Openapi.findBy_ref Openapi.get_refName Scenario.verbatim fuel
      (Sch Scenario.schemaA) "A" Scenario.cyclic Scenario.collecting (start ∅)).
Proof.
  apply (collector_cycle_diverges _ _ _ _ _ Scenario.pA Scenario.pB
           Scenario.schemaA Scenario.schemaB); try reflexivity.
  - repeat split. now exists "b".
  - repeat split. now exists "a".
Qed.

(** The same document through the general statement, and the document in
    which [B] references nothing: there the call returns the declaration of
    [A] with the block of [B] inline, and the nested call for [B], once
    settled, has handed the declaration of [B] to the sink. *)
Lemma collector_cyclic_never_returns :
  references Scenario.schemaA Scenario.pB /\
  references Scenario.schemaB Scenario.pA /\
  ~ returns (jsonSchema2TsStr Openapi.findBy_ref Openapi.get_refName Scenario.verbatim 9
               (Sch Scenario.schemaA) "A" Scenario.cyclic Scenario.collecting (start ∅)) /\
  only_references Scenario.schemaA Scenario.pB /\
  expands_inline Openapi.findBy_ref Openapi.get_refName Scenario.verbatim
    Scenario.acyclic Scenario.collecting Scenario.pB Scenario.schemaA
    (Scenario.object [("x", Sch (Scenario.typed "string"))] None) "A" ∅ /\
  jsonSchema2TsStr Openapi.findBy_ref Openapi.get_refName Scenario.verbatim 4
    (Sch Scenario.schemaA) "A" Scenario.acyclic Scenario.collecting (start ∅) =
    Return Scenario.declA {| memo := ∅; pending := [Scenario.taskB]; sunk := [] |} /\
  drain Scenario.verbatim Scenario.collecting
    {| memo := ∅; pending := [Scenario.taskB]; sunk := [] |} =
    {| memo := {[ "B" := Scenario.declB ]}; pending := [];
       sunk := [{| sink_name := "B"; sink_tsStr := Scenario.declB;
                   sink_memo := {[ "B" := Scenario.declB ]} |}] |}.
Proof.
  assert (Ha : references Scenario.schemaA Scenario.pB).
  { repeat split. exists "b", [("b", Scenario.refTo Scenario.pB)].
    split; [reflexivity | apply list_elem_of_here]. }
  assert (Hb : references Scenario.schemaB Scenario.pA).
  { repeat split. exists "a", [("a", Scenario.refTo Scenario.pA)].
    split; [reflexivity | apply list_elem_of_here]. }
  assert (Hab : only_references Scenario.schemaA Scenario.pB).
  { split; [reflexivity|]. split; [reflexivity|]. now exists "b". }
  split; [exact Ha | split; [exact Hb|]].
  split.
  { exact (proj1 collector_deep_cycle _ Openapi.findBy_ref Openapi.get_refName
             Scenario.verbatim Scenario.cyclic Scenario.collecting
             Scenario.pA Scenario.pB Scenario.schemaA Scenario.schemaB "A" 9%nat (start ∅)
             eq_refl eq_refl eq_refl Ha Hb). }
  split; [exact Hab|].
  split.
  { exact (proj2 collector_deep_cycle _ Openapi.findBy_ref Openapi.get_refName
             Scenario.verbatim Scenario.acyclic Scenario.collecting
             Scenario.pB Scenario.schemaA
             (Scenario.object [("x", Sch (Scenario.typed "string"))] None) "A" ∅
             eq_refl eq_refl Hab eq_refl eq_refl eq_refl). }
  split; vm_compute; reflexivity.
Defined.

(** Two runs on the document where [A] references [B]: with [B] in the memo
    the sink is called during the traversal, with the cached text; with an
    empty memo the nested call for [B] is left pending and the sink is called
    when it settles. *)
Lemma sink_after_store_runs :
  let sync := jsonSchema2TsStr_sync Openapi.findBy_ref Openapi.get_refName 4
                (Sch Scenario.schemaA) "A" Scenario.acyclic Scenario.collecting in
  let cached := start {[ "B" := "cached" ]} in
  let fresh := {| memo := ∅; pending := [Scenario.taskB]; sunk := [] |} in
  (sync cached = Return (AwaitFormat ("type Ts = " +:+ Scenario.bodyA))
                   (call_sink "B" "cached" cached) /\
   Forall sink_ok (sunk (call_sink "B" "cached" cached)))
  /\ (sync (start ∅) = Return (AwaitFormat ("type Ts = " +:+ Scenario.bodyA)) fresh /\
      length (sunk (drain Scenario.verbatim Scenario.collecting fresh)) = 1%nat /\
      Forall sink_ok (sunk (drain Scenario.verbatim Scenario.collecting fresh))).
Proof.
  intros sync cached fresh.
  pose proof (fun m => proj1 (sink_after_store Openapi.findBy_ref Openapi.get_refName
                Scenario.verbatim Scenario.acyclic Scenario.collecting 4
                (Sch Scenario.schemaA) "A" m)) as Hinv.
  split; [split | split; [|split]]; try reflexivity.
  - apply (Hinv {[ "B" := "cached" ]} (call_sink "B" "cached" cached)).
    apply rtc_refl.
  - apply (Hinv ∅ (drain Scenario.verbatim Scenario.collecting fresh)).
    apply (drain_steps Scenario.verbatim Scenario.collecting fresh).
Defined.

(** * Further properties *)

(** ** The comment builder *)

Section CommentFacts.

Variable ty : CommentStyle.

Lemma comment_lines_snoc texts text :
  comment_lines ty (texts ++ [text]) =
  (comment_lines ty texts ++
   map (fun item => Comment.preText ty +:+ " " +:+ item)
       (Str.split "010"%char (Comment.transformeText ty text)))%list.
Proof.
  unfold comment_lines. rewrite flat_map_app. cbn [flat_map].
  now rewrite app_nil_r.
Qed.

Lemma marked_lines_nonempty text :
  map (fun item => Comment.preText ty +:+ " " +:+ item)
      (Str.split "010"%char (Comment.transformeText ty text)) <> [].
Proof.
  destruct (Str.split "010"%char (Comment.transformeText ty text)) eqn:Hs;
    [now apply split_nonempty in Hs | discriminate].
Qed.

Lemma comment_lines_head texts :
  texts <> [] ->
  exists first rest, comment_lines ty texts = first :: rest /\ first <> "".
Proof.
  destruct texts as [|text texts]; [congruence|]. intros _.
  unfold comment_lines. cbn [flat_map].
  destruct (Str.split "010"%char (Comment.transformeText ty text)) as [|item items] eqn:Hs;
    [now apply split_nonempty in Hs|].
  cbn [map app]. eexists _, _. split; [reflexivity|].
  destruct ty; discriminate.
Qed.

Lemma comment_of_state texts :
  Comment.str (comment_of ty texts) = Str.join Str.nl (comment_lines ty texts) /\
  Comment.idx (comment_of ty texts) = length texts.
Proof.
  induction texts as [|text texts IH] using rev_ind; [split; reflexivity|].
  destruct IH as [Hstr Hidx].
  unfold comment_of in *. rewrite foldl_snoc.
  set (c := foldl _ Comment.init texts) in *. unfold Comment.add.
  cbn [Comment.str Comment.idx]. rewrite Hidx, Hstr, length_app. cbn [length].
  split; [|lia].
  rewrite comment_lines_snoc.
  destruct texts as [|t0 texts].
  - reflexivity.
  - cbn [length]. rewrite join_app.
    + now rewrite append_assoc.
    + destruct (comment_lines_head (t0 :: texts)) as (? & ? & -> & _);
        [discriminate | discriminate].
    + apply marked_lines_nonempty.
Qed.

Lemma comment_end_form texts :
  Comment.end_ ty (comment_of ty texts) =
  match texts with
  | [] => ""
  | _ => Comment.startText ty +:+ Str.join Str.nl (comment_lines ty texts) +:+
         Comment.endText ty
  end.
Proof.
  unfold Comment.end_. destruct (comment_of_state texts) as [-> _].
  destruct texts as [|text texts]; [reflexivity|].
  destruct (comment_lines_head (text :: texts)) as (first & rest & Hl & Hne);
    [discriminate|].
  rewrite Hl.
  destruct (Str.join Str.nl (first :: rest)) eqn:Hj; [|reflexivity].
  now apply join_nonempty in Hj.
Qed.

(** X1. The comment that [end] returns after any sequence of [add]: nothing
    when nothing was added; otherwise the opening of the style, the lines of
    the fragments in the order they were added, each behind the marker of
    the style, and the closing of the style.  It is empty only when nothing
    was added. *)
Theorem comment_end_closed_form texts :
  Comment.end_ ty (comment_of ty texts) =
    match texts with
    | [] => ""
    | _ => Comment.startText ty +:+ Str.join Str.nl (comment_lines ty texts) +:+
           Comment.endText ty
    end
  /\ (Comment.end_ ty (comment_of ty texts) = "" <-> texts = []).
Proof.
  split; [apply comment_end_form|].
  rewrite comment_end_form. destruct texts as [|text texts]; [easy|].
  split; [|discriminate]. intros H. exfalso.
  destruct ty; cbn [Comment.startText Comment.endText] in H.
  - destruct (Str.join Str.nl (comment_lines Line (text :: texts))); discriminate.
  - discriminate.
Qed.

End CommentFacts.

(** X2. What block style does to a fragment: of a title fragment it keeps
    the first line of what follows the marker, trimmed, and puts a rule of
    three dashes on the next line; the bare [deprecated] marker becomes the
    [deprecated] tag; every other fragment is kept as it is, as is every
    fragment in line style. *)
Theorem transformeText_cases :
  (forall rest,
     Comment.transformeText Docment ("[title]" +:+ rest) =
     Str.trim (Str.line_prefix rest) +:+ Str.nl +:+ "---")
  /\ Comment.transformeText Docment "[deprecated]" = "@deprecated"
  /\ (forall text,
        Str.startsWith "[title]" text = false -> text <> "[deprecated]" ->
        Comment.transformeText Docment text = text)
  /\ (forall text, Comment.transformeText Line text = text).
Proof.
  split; [|split; [|split]].
  - intros rest. unfold Comment.transformeText.
    cbn [find Comment.docmentTransformeKeyArr fst snd].
    unfold Str.startsWith. rewrite prefix_append.
    cbn [snd]. unfold Str.after_first_line. now rewrite after_first_append.
  - reflexivity.
  - intros text Htitle Hdep. unfold Comment.transformeText.
    cbn [find Comment.docmentTransformeKeyArr Comment.docmentKeyArr fst snd].
    rewrite Htitle.
    destruct (String.eqb_spec "[deprecated]" text) as [<-|_]; [congruence | reflexivity].
  - reflexivity.
Qed.

(** ** Enumerations stay on one line *)

Section OneLine.

Local Abbreviation LF := "010"%char.

Lemma quote_char_no_LF c : occurs LF (JSON.quote_char c) = false.
Proof. destruct c as [[] [] [] [] [] [] [] []]; vm_compute; reflexivity. Qed.

Lemma quote_body_no_LF s : occurs LF (JSON.quote_body s) = false.
Proof.
  induction s as [|c s IH]; [reflexivity|]. cbn [JSON.quote_body].
  now rewrite occurs_app, quote_char_no_LF, IH.
Qed.

Lemma quote_no_LF s : occurs LF (JSON.quote s) = false.
Proof.
  unfold JSON.quote. now rewrite !occurs_app, quote_body_no_LF.
Qed.

Lemma string_of_uint_no_LF d : occurs LF (NilEmpty.string_of_uint d) = false.
Proof. induction d; cbn; auto. Qed.

Lemma of_Z_no_LF n : occurs LF (Str.of_Z n) = false.
Proof.
  unfold Str.of_Z, NilZero.string_of_int, NilZero.string_of_uint.
  destruct (Z.to_int n) as [d|d]; destruct d; cbn [occurs Ascii.eqb Bool.eqb orb];
    try reflexivity; apply string_of_uint_no_LF.
Qed.

Lemma join_no_LF sep l :
  occurs LF sep = false ->
  Forall (fun s => occurs LF s = false) l ->
  occurs LF (Str.join sep l) = false.
Proof.
  intros Hsep Hl. induction Hl as [|x l Hx Hl IH]; [reflexivity|].
  destruct l as [|y l]; [exact Hx|].
  rewrite join_cons2, !occurs_app, Hx, Hsep. exact IH.
Qed.

Lemma stringify_no_LF : forall v, occurs LF (JSON.stringify v) = false.
Proof.
  fix IH 1. intros [| [] | n | s | l | l]; cbn [JSON.stringify].
  - reflexivity.
  - reflexivity.
  - reflexivity.
  - apply of_Z_no_LF.
  - apply quote_no_LF.
  - rewrite !occurs_app. rewrite join_no_LF; [reflexivity | reflexivity |].
    induction l as [|x l IHl]; constructor; [apply IH | exact IHl].
  - rewrite !occurs_app. rewrite join_no_LF; [reflexivity | reflexivity |].
    induction l as [|[k x] l IHl]; constructor; [|exact IHl].
    now rewrite !occurs_app, quote_no_LF, IH.
Qed.

(** X3. The rendering of an enumeration has no line break in it, whatever
    the values: a line break in a string value is written as an escape.  So
    an enumerated property always takes one line of the object it is in. *)
Theorem parseEnum_one_line (schema : SchemaObject) :
  occurs LF (parseEnum schema) = false /\
  Str.split LF (parseEnum schema) = [parseEnum schema].
Proof.
  assert (H : occurs LF (parseEnum schema) = false).
  { unfold parseEnum. destruct (enum schema) as [values|]; [|reflexivity].
    apply join_no_LF; [reflexivity|].
    apply Forall_map, Forall_forall. intros v _. apply stringify_no_LF. }
  split; [exact H | now apply split_no_sep].
Qed.

End OneLine.

(** ** What the formatter keeps of the printed text *)

Section ResumeFacts.

Context {St : Type}.

Lemma imap_keep (l : list string) :
  imap (fun idx line => match idx with O => "" | S _ => "" end +:+ line) l = l.
Proof.
  induction l as [|x l IH]; [reflexivity|]. cbn [imap]. f_equal.
  etransitivity; [|exact IH]. apply imap_ext. now intros [|i] y _.
Qed.

Lemma imap_prefix pre (l : list string) :
  imap (fun idx line => match idx with O => "" | S _ => pre end +:+ line) l =
  match l with
  | [] => []
  | first :: rest => first :: map (fun line => pre +:+ line) rest
  end.
Proof.
  destruct l as [|first rest]; [reflexivity|]. cbn [imap]. f_equal.
  clear first. unfold compose.
  generalize 0%nat. induction rest as [|x rest IH]; intros n; [reflexivity|].
  cbn [imap map]. f_equal. unfold compose. apply (IH (S n)).
Qed.

(** X4. What the formatter makes of the printed text: the type expression
    that follows [type Ts = ] is trimmed, and [preText] is put before each of
    its lines but the first.  With an empty [preText], as the collector has
    it, the result is the trimmed expression, otherwise unchanged. *)
Theorem convertToType_resume_keeps (config : Schema2TypeOptions St) body :
  convertToType_resume config ("type Ts = " +:+ body) =
    match Str.split "010"%char (Str.trim body) with
    | [] => ""
    | first :: rest =>
        Str.join Str.nl
          (first :: map (fun line => default "undefined" (preText config) +:+ line) rest)
    end
  /\ (preText config = Some "" ->
      convertToType_resume config ("type Ts = " +:+ body) = Str.trim body).
Proof.
  unfold convertToType_resume. rewrite after_first_append. cbn [from_option id].
  split.
  - rewrite imap_prefix. now destruct (Str.split "010"%char (Str.trim body)).
  - intros ->. cbn [from_option id]. rewrite imap_keep. apply join_split.
Qed.

End ResumeFacts.

(** ** The observer and the rendered text *)

Section Observer.

Context {St Document : Type}.
Variable findBy_ref : string -> Document -> option SchemaObject.
Variable get_refName : string -> string.
Variable openApi : Document.
Variable config : Schema2TypeOptions St.

Local Abbreviation typeOf := (parseSchema findBy_ref get_refName).

Lemma bind_Return_inv {A B} (m : M St A) (k : A -> M St B) st b st2 :
  bind m k st = Return b st2 ->
  exists a st1, m st = Return a st1 /\ k a st1 = Return b st2.
Proof.
  unfold bind. destruct (m st) as [a st1 | e st1 | st1]; try discriminate.
  intros H. now exists a, st1.
Qed.

Lemma pure_twin_ret {A} (a : A) : @pure_twin St A (ret a) (ret a).
Proof. intros st b st' [= <- <-] st0. reflexivity. Qed.

Lemma pure_twin_bind {A B} (m1 m2 : M St A) (k1 k2 : A -> M St B) :
  pure_twin m1 m2 -> (forall a, pure_twin (k1 a) (k2 a)) ->
  pure_twin (bind m1 k1) (bind m2 k2).
Proof.
  intros Hm Hk st b st2 H st0.
  apply bind_Return_inv in H as (a & st1 & Hm1 & Hk1).
  unfold bind. rewrite (Hm _ _ _ Hm1 st0). exact (Hk _ _ _ _ Hk1 st0).
Qed.

Lemma pure_twin_mapM {A B} (f1 f2 : A -> M St B) l :
  (forall x, pure_twin (f1 x) (f2 x)) -> pure_twin (mapM f1 l) (mapM f2 l).
Proof.
  intros Hf. induction l as [|x l IH]; cbn [mapM]; [apply pure_twin_ret|].
  apply pure_twin_bind; [apply Hf|]. intros y.
  apply pure_twin_bind; [exact IH|]. intros ys. apply pure_twin_ret.
Qed.

Lemma pure_twin_foldM {A B} (f1 f2 : B -> A -> M St B) l :
  (forall b x, pure_twin (f1 b x) (f2 b x)) ->
  forall b, pure_twin (foldM f1 l b) (foldM f2 l b).
Proof.
  intros Hf. induction l as [|x l IH]; intros b; cbn [foldM]; [apply pure_twin_ret|].
  apply pure_twin_bind; [apply Hf | exact IH].
Qed.

Lemma pure_twin_resolve pointer :
  @pure_twin St _ (resolve findBy_ref pointer openApi) (resolve findBy_ref pointer openApi).
Proof.
  unfold resolve. destruct (findBy_ref pointer openApi); [apply pure_twin_ret|].
  intros st a st' [=].
Qed.

Lemma pure_twin_notify r :
  pure_twin (notify config r) (notify (without_observer config) r).
Proof. intros st [] st' _ st0. reflexivity. Qed.

Lemma pure_twin_dispatch rec1 rec2 schema :
  (forall s, pure_twin (rec1 s) (rec2 s)) ->
  pure_twin (dispatch findBy_ref get_refName rec1 schema openApi config)
            (dispatch findBy_ref get_refName rec2 schema openApi (without_observer config)).
Proof.
  intros Hrec. unfold dispatch.
  destruct (enum schema); [apply pure_twin_ret|].
  repeat match goal with
         | |- pure_twin (if ?b then _ else _) _ => destruct b
         end;
    try apply pure_twin_ret.
  - unfold parseObject.
    apply pure_twin_bind; [|intros; apply pure_twin_ret].
    apply pure_twin_foldM. intros lines [key valueOrigin]. unfold parseProperty.
    apply pure_twin_bind.
    + destruct valueOrigin; [apply pure_twin_resolve | apply pure_twin_ret].
    + intros value. apply pure_twin_bind; [apply Hrec|].
      intros tsType. apply pure_twin_ret.
  - unfold parseArray. destruct (items schema) as [|it|l].
    + apply pure_twin_ret.
    + assert (Hgen : forall m : M St SchemaObject, pure_twin m m ->
        pure_twin (let* items := m in let* tsType := rec1 (Sch items) in
                   ret (wrapItems items tsType))
                  (let* items := m in let* tsType := rec2 (Sch items) in
                   ret (wrapItems items tsType))).
      { intros m Hm. apply pure_twin_bind; [exact Hm|]. intros s.
        apply pure_twin_bind; [apply Hrec|]. intros; apply pure_twin_ret. }
      cbn [without_observer deep].
      destruct it as [r|s], (truthy (deep config)).
      * apply Hgen, pure_twin_resolve.
      * apply pure_twin_bind; [apply pure_twin_notify|]. intros; apply pure_twin_ret.
      * apply Hgen, pure_twin_ret.
      * apply Hgen, pure_twin_ret.
    + apply pure_twin_bind; [now apply pure_twin_mapM|]. intros; apply pure_twin_ret.
  - destruct (oneOf schema).
    + apply pure_twin_bind; [now apply pure_twin_mapM|]. intros; apply pure_twin_ret.
    + apply pure_twin_ret.
Qed.

Lemma pure_twin_parseSchema fuel schema :
  pure_twin (typeOf fuel schema openApi config)
            (typeOf fuel schema openApi (without_observer config)).
Proof.
  revert schema. induction fuel as [|fuel IH]; intros schema.
  - intros st a st' [=].
  - cbn [parseSchema]. destruct schema as [r|s].
    + apply pure_twin_bind; [apply pure_twin_notify|]. intros _.
      cbn [without_observer deep].
      destruct (negb (truthy (deep config))); [apply pure_twin_ret|].
      apply pure_twin_bind; [apply pure_twin_resolve|]. intros s.
      now apply pure_twin_dispatch.
    + now apply pure_twin_dispatch.
Qed.

(** X6. The observer has no part in the text: whatever a traversal with an
    observer returns, the traversal without it returns too, from any state
    and without touching it. *)
Theorem parseSchema_observer_irrelevant fuel schema st out st' :
  typeOf fuel schema openApi config st = Return out st' ->
  forall st0,
    typeOf fuel schema openApi (without_observer config) st0 = Return out st0.
Proof. apply pure_twin_parseSchema. Qed.

End Observer.

(** ** Termination without deep mode, and the bound on the recursion *)

Section Ends.

Context {St : Type}.

Lemma ends_ret {A} (a : A) : ends (@ret St A a).
Proof. intros st H. exact H. Qed.

Lemma ends_throw {A} e : ends (@throw St A e).
Proof. intros st H. exact H. Qed.

Lemma ends_bind {A B} (m : M St A) (k : A -> M St B) :
  ends m -> (forall a, ends (k a)) -> ends (bind m k).
Proof.
  intros Hm Hk st. unfold bind. specialize (Hm st).
  destruct (m st) as [a st1 | e st1 | st1]; [apply Hk | exact id | exact Hm].
Qed.

Lemma ends_mapM {A B} (f : A -> M St B) l :
  (forall x, x ∈ l -> ends (f x)) -> ends (mapM f l).
Proof.
  induction l as [|x l IH]; intros Hf; cbn [mapM]; [apply ends_ret|].
  apply ends_bind; [apply Hf, list_elem_of_here|]. intros y.
  apply ends_bind; [|intros; apply ends_ret].
  apply IH. intros z Hz. apply Hf. now apply list_elem_of_further.
Qed.

Lemma ends_foldM {A B} (f : B -> A -> M St B) l :
  (forall b x, x ∈ l -> ends (f b x)) -> forall b, ends (foldM f l b).
Proof.
  induction l as [|x l IH]; intros Hf b; cbn [foldM]; [apply ends_ret|].
  apply ends_bind; [apply Hf, list_elem_of_here|]. intros b1.
  apply IH. intros b2 z Hz. apply Hf. now apply list_elem_of_further.
Qed.

Context {Document : Type}.
Variable findBy_ref : string -> Document -> option SchemaObject.
Variable get_refName : string -> string.
Variable openApi : Document.
Variable config : Schema2TypeOptions St.

Local Abbreviation typeOf := (parseSchema findBy_ref get_refName).

Lemma parseSchema_S fuel schema :
  typeOf (S fuel) schema openApi config =
  match schema with
  | Ref r =>
      let* _ := notify config r in
      if negb (truthy (deep config)) then ret (get_refName (ref r))
      else let* s := resolve findBy_ref (ref r) openApi in
           dispatch findBy_ref get_refName
             (fun x => typeOf fuel x openApi config) s openApi config
  | Sch s =>
      dispatch findBy_ref get_refName
        (fun x => typeOf fuel x openApi config) s openApi config
  end.
Proof. reflexivity. Qed.

Hypothesis shallow : truthy (deep config) = false.
Hypothesis observer_ends : forall f r, on_Ref config = Some f -> ends (f r).

Lemma ends_resolve pointer : @ends St _ (resolve findBy_ref pointer openApi).
Proof.
  unfold resolve. destruct (findBy_ref pointer openApi);
    [apply ends_ret | apply ends_throw].
Qed.

Lemma ends_notify r : ends (notify config r).
Proof.
  unfold notify. destruct (on_Ref config) as [f|] eqn:Hf.
  - now apply observer_ends.
  - apply ends_ret.
Qed.

Lemma ends_dispatch rec schema :
  (forall child, (height child < height (Sch schema))%nat -> ends (rec child)) ->
  ends (dispatch findBy_ref get_refName rec schema openApi config).
Proof.
  intros Hrec. unfold dispatch.
  destruct (enum schema); [apply ends_ret|].
  repeat match goal with
         | |- ends (if ?b then _ else _) => destruct b
         end;
    try apply ends_ret.
  - unfold parseObject.
    apply ends_bind; [|intros; apply ends_ret].
    apply ends_foldM. intros lines [key valueOrigin] Hin. unfold parseProperty.
    apply ends_bind.
    + destruct valueOrigin; [apply ends_resolve | apply ends_ret].
    + intros value. apply ends_bind; [|intros; apply ends_ret].
      apply Hrec.
      destruct (properties schema) as [props|] eqn:Hprops;
        [|now apply not_elem_of_nil in Hin].
      exact (height_properties _ _ _ _ Hprops Hin).
  - unfold parseArray. destruct (items schema) as [|it|l] eqn:Hitems.
    + apply ends_ret.
    + rewrite shallow. destruct it as [r|s].
      * apply ends_bind; [apply ends_notify|]. intros; apply ends_ret.
      * rewrite bind_ret_l.
        apply ends_bind; [|intros; apply ends_ret].
        apply Hrec. exact (height_items_one _ _ Hitems).
    + apply ends_bind; [|intros; apply ends_ret].
      apply ends_mapM. intros x Hin. apply Hrec.
      exact (height_items_tuple _ _ _ Hitems Hin).
  - destruct (oneOf schema) as [l|] eqn:HoneOf; [|apply ends_ret].
    apply ends_bind; [|intros; apply ends_ret].
    apply ends_mapM. intros x Hin. apply Hrec.
    exact (height_oneOf _ _ _ HoneOf Hin).
Qed.

Lemma ends_parseSchema fuel :
  forall schema, (height schema < fuel)%nat -> ends (typeOf fuel schema openApi config).
Proof.
  induction fuel as [|fuel IH]; intros schema Hlt; [lia|].
  rewrite parseSchema_S. destruct schema as [r|s].
  - apply ends_bind; [apply ends_notify|]. intros _.
    rewrite shallow. apply ends_ret.
  - apply ends_dispatch. intros child Hchild. apply IH. lia.
Qed.

(** X7. Without deep mode the traversal ends on every schema, whatever the
    document, cyclic pointers included: a bound above the height of the
    schema is enough, provided the observer itself ends.  A reference is
    never followed; it only costs the lookup of the property it stands for. *)
Theorem parseSchema_shallow_ends fuel schema st :
  (height schema < fuel)%nat ->
  ~ exhausted (typeOf fuel schema openApi config st).
Proof. intros Hlt. now apply ends_parseSchema. Qed.

End Ends.

(** ** Shapes of the rendering *)

Section Shapes.

Context {St Document : Type}.
Variable findBy_ref : string -> Document -> option SchemaObject.
Variable get_refName : string -> string.
Variable openApi : Document.
Variable config : Schema2TypeOptions St.

Local Abbreviation typeOf := (parseSchema findBy_ref get_refName).

(** X9. An array node without [items] renders as the empty tuple, and the
    observer is not called. *)
Theorem parseArray_no_items fuel schema st :
  type schema = TypeStr "array" ->
  enum schema = None ->
  items schema = ItemsAbsent ->
  parseSchema findBy_ref get_refName (S fuel) (Sch schema) openApi config st =
  Return "[]" st.
Proof.
  intros Hty Henum Hitems. rewrite parseSchema_array by assumption.
  unfold parseArray. now rewrite Hitems.
Qed.

(** X10. A node whose [type] is one of the five primitive names renders as
    that name, [number] for [integer], whatever else it carries but an
    [enum]: a [oneOf] beside a recognized [type] is not looked at.  With a
    [type] that is not recognized, a [oneOf] renders as its branches joined
    by a bar, and an empty [oneOf] as the empty string, not as the default
    type. *)
Theorem parseSchema_primitive_oneOf fuel schema st :
  enum schema = None ->
  (forall name,
     type schema = TypeStr name ->
     name ∈ ["string"; "number"; "integer"; "boolean"; "null"] ->
     typeOf (S fuel) (Sch schema) openApi config st =
     Return (if String.eqb name "integer" then "number" else name) st)
  /\ (forall branches parts st',
        recognized (type schema) = false ->
        oneOf schema = Some branches ->
        mapM (fun s => typeOf fuel s openApi config) branches st = Return parts st' ->
        typeOf (S fuel) (Sch schema) openApi config st =
        Return (Str.join " | " parts) st')
  /\ (recognized (type schema) = false ->
      oneOf schema = Some [] ->
      typeOf (S fuel) (Sch schema) openApi config st = Return "" st).
Proof.
  intros Henum. split; [|split].
  - intros name Hty Hin. rewrite parseSchema_Sch. unfold dispatch.
    rewrite Henum, Hty.
    repeat (apply elem_of_cons in Hin as [-> | Hin]; [reflexivity|]).
    now apply not_elem_of_nil in Hin.
  - intros branches parts st' Hrec HoneOf Hmap.
    rewrite parseSchema_Sch, dispatch_unrecognized by assumption.
    rewrite HoneOf. unfold bind. now rewrite Hmap.
  - intros Hrec HoneOf.
    rewrite parseSchema_Sch, dispatch_unrecognized by assumption.
    now rewrite HoneOf.
Qed.

Lemma foldM_Return_inv {A B} (I : B -> Prop) (f : B -> A -> M St B) l :
  (forall b x st b' st', I b -> f b x st = Return b' st' -> I b') ->
  forall b st b' st', I b -> foldM f l b st = Return b' st' -> I b'.
Proof.
  intros Hf. induction l as [|x l IH]; intros b st b' st' Hb H; cbn [foldM] in H.
  - now injection H as <- _.
  - apply bind_Return_inv in H as (b1 & st1 & H1 & H2). eauto.
Qed.

Lemma parseProperty_lines rec required lines entry st lines' st' :
  parseProperty findBy_ref rec openApi config required lines entry st = Return lines' st' ->
  exists new,
    new <> [] /\
    Forall (fun line => Str.startsWith " " line = true /\
                        occurs "010"%char line = false) new /\
    lines' = (lines ++ new)%list.
Proof.
  destruct entry as [key valueOrigin]. unfold parseProperty. intros H.
  apply bind_Return_inv in H as (value & st1 & _ & H).
  apply bind_Return_inv in H as (tsType & st2 & _ & H).
  injection H as <- _.
  eexists. split; [|split; [|reflexivity]].
  - match goal with
    | |- map _ (Str.split ?c ?s) <> [] =>
        destruct (Str.split c s) eqn:Hs; [now apply split_nonempty in Hs | discriminate]
    end.
  - apply Forall_map. eapply Forall_impl; [apply split_parts_no_sep|].
    intros line Hline. split; [apply prefix_append|].
    rewrite append_String. cbn [occurs Ascii.eqb Bool.eqb orb]. exact Hline.
Qed.

(** X11. An object node with at least one property, when it renders, renders
    as a block: split at its line breaks, the text is an opening brace on
    the first line, a closing brace on the last, and between them at least
    one line, each indented by one space. *)
Theorem parseObject_block fuel schema entry entries st out st' :
  type schema = TypeStr "object" ->
  enum schema = None ->
  properties schema = Some (entry :: entries) ->
  typeOf (S fuel) (Sch schema) openApi config st = Return out st' ->
  exists body,
    body <> [] /\
    Forall (fun line => Str.startsWith " " line = true /\
                        occurs "010"%char line = false) body /\
    Str.split "010"%char out = "{" :: body ++ ["}"] /\
    out = Str.join Str.nl ("{" :: body ++ ["}"]).
Proof.
  intros Hty Henum Hprops H.
  rewrite parseSchema_Sch, dispatch_object in H by assumption.
  unfold parseObject in H. rewrite Hprops in H. cbn [from_option id foldM] in H.
  apply bind_Return_inv in H as (lines & st1 & Hfold & Hret).
  apply bind_Return_inv in Hfold as (lines1 & st2 & Hfirst & Hfold).
  apply parseProperty_lines in Hfirst as (new & Hnew & Hind & ->).
  set (I := fun lines : list string =>
              exists body, body <> [] /\
                Forall (fun line => Str.startsWith " " line = true /\
                                    occurs "010"%char line = false) body /\
                lines = "{" :: body).
  assert (HI : I lines).
  { refine (foldM_Return_inv I _ _ _ _ _ _ _ _ Hfold).
    - intros b x sta b' stb (body & Hne & Hall & ->) Hstep.
      apply parseProperty_lines in Hstep as (more & _ & Hmore & ->).
      exists (body ++ more)%list. split; [|split].
      + destruct body; [congruence | discriminate].
      + now apply Forall_app.
      + reflexivity.
    - exists new. auto. }
  destruct HI as (body & Hne & Hall & ->).
  exists body. split; [exact Hne|]. split; [exact Hall|].
  injection Hret as <- _.
  assert (Hout : (if (2 <? length (("{" :: body) ++ ["}"]))%nat
                  then Str.join Str.nl (("{" :: body) ++ ["}"]) else "object") =
                 Str.join Str.nl ("{" :: body ++ ["}"])).
  { destruct body as [|l0 body]; [congruence|].
    cbn [app length]. rewrite length_app. cbn [length].
    replace (2 <? S (S (length body + 1)))%nat with true; [reflexivity|].
    symmetry. apply Nat.ltb_lt. lia. }
  match goal with
  | |- Str.split _ ?o = _ /\ _ =>
      replace o with (Str.join Str.nl ("{" :: body ++ ["}"]))
        by (symmetry; exact Hout)
  end.
  split; [|reflexivity].
  change Str.nl with (String "010"%char "").
  apply split_join; [discriminate|].
  apply Forall_cons. split; [reflexivity|].
  apply Forall_app. split.
  - eapply Forall_impl; [exact Hall|]. now intros line [_ Hline].
  - now repeat constructor.
Qed.

(** X12. A property that is a reference is looked up in the document in
    either mode, for its title, description and deprecation: when the
    pointer does not resolve the object does not render, deep mode or not;
    when that property is the first, the exception is the resolver's and the
    state is untouched. *)
Theorem parseObject_unresolved fuel schema props key r st :
  type schema = TypeStr "object" ->
  enum schema = None ->
  properties schema = Some props ->
  (key, Ref r) ∈ props ->
  findBy_ref (ref r) openApi = None ->
  ~ returns (typeOf (S fuel) (Sch schema) openApi config st)
  /\ (forall rest, props = (key, Ref r) :: rest ->
      typeOf (S fuel) (Sch schema) openApi config st = Throw (UnresolvedRef (ref r)) st).
Proof.
  intros Hty Henum Hprops Hin Hfind.
  rewrite parseSchema_Sch, dispatch_object by assumption.
  unfold parseObject. rewrite Hprops. cbn [from_option id]. split.
  - apply not_returns_bind_l.
    apply (not_returns_foldM _ _ _ Hin). intros lines st1. unfold parseProperty.
    apply not_returns_bind_l. unfold resolve. rewrite Hfind.
    intros (v & st2 & [=]).
  - intros rest ->. cbn [foldM]. unfold parseProperty, bind, resolve.
    now rewrite Hfind.
Qed.

End Shapes.

(** ** The memo during the traversal *)

Section CollectorMemo.

Context {Document : Type}.
Variable findBy_ref : string -> Document -> option SchemaObject.
Variable get_refName : string -> string.
Variable format : string -> option string.
Variable openApi : Document.
Variable options : JsonSchema2TsOptions.

Local Abbreviation sync := (jsonSchema2TsStr_sync findBy_ref get_refName).

Section Closed.

Variable P : CState -> Prop.
Hypothesis P_call_sink :
  forall name cached st, P st -> memo st !! name = Some cached -> P (call_sink name cached st).
Hypothesis P_spawn : forall t st, P st -> P (spawn t st).

Lemma preserves_on_Ref_async_closed self r :
  (forall s n, preserves P (self s n)) ->
  preserves P (on_Ref_async findBy_ref get_refName self openApi options r).
Proof.
  intros Hself st HP. unfold on_Ref_async.
  destruct (on_RefTsStr options); [|exact HP].
  destruct (memo st !! get_refName (ref r)) as [cached|] eqn:Hmemo.
  - now apply P_call_sink.
  - destruct (findBy_ref (ref r) openApi) as [target|]; [|exact HP].
    specialize (Hself (Sch target) (get_refName (ref r)) st HP).
    unfold post in *.
    destruct (self (Sch target) (get_refName (ref r)) st) as [p st1 | e st1 | st1];
      cbn [final] in *; [now apply P_spawn | exact Hself | exact Hself].
Qed.

Lemma preserves_sync_closed fuel :
  forall schema name, preserves P (sync fuel schema name openApi options).
Proof.
  induction fuel as [|fuel IH]; intros schema name.
  - intros st HP. exact HP.
  - cbn [jsonSchema2TsStr_sync]. unfold convertToType_sync.
    apply preserves_bind; [|intros; apply preserves_ret].
    apply preserves_parseSchema. intros f r [= <-].
    apply preserves_on_Ref_async_closed. intros s n. apply IH.
Qed.

End Closed.

(** X13. The traversal does not write the memo: it is the same when the
    synchronous part of the call is over as when it began, however many
    references were met.  The sink calls made meanwhile are for names the
    memo had from the start, with the cached text; with an empty memo the
    sink is not called before a nested call settles. *)
Theorem sync_memo_unchanged fuel schema name st :
  let st' := final (sync fuel schema name openApi options st) in
  memo st' = memo st
  /\ (exists calls,
        sunk st' = (sunk st ++ calls)%list /\
        Forall (fun c => memo st !! sink_name c = Some (sink_tsStr c)) calls)
  /\ (memo st = ∅ -> sunk st' = sunk st).
Proof.
  set (P := fun s : CState =>
              memo s = memo st /\
              exists calls,
                sunk s = (sunk st ++ calls)%list /\
                Forall (fun c => memo st !! sink_name c = Some (sink_tsStr c)) calls).
  assert (HP : P (final (sync fuel schema name openApi options st))).
  { apply (preserves_sync_closed P).
    - intros n cached s (Hm & calls & Hs & Hall) Hlook. split; [exact Hm|].
      exists (calls ++ [{| sink_name := n; sink_tsStr := cached; sink_memo := memo s |}])%list.
      split.
      + cbn. now rewrite Hs, app_assoc.
      + apply Forall_app. split; [exact Hall|].
        apply Forall_cons. split; [|apply Forall_nil_2]. cbn. now rewrite <- Hm.
    - intros t s HPs. exact HPs.
    - split; [reflexivity|]. exists []. split; [now rewrite app_nil_r | apply Forall_nil_2]. }
  destruct HP as (Hm & calls & Hs & Hall). cbn zeta.
  split; [exact Hm|]. split; [now exists calls|].
  intros Hempty. rewrite Hs.
  destruct calls as [|c calls]; [apply app_nil_r|].
  apply Forall_cons in Hall as [Hc _]. rewrite Hempty, lookup_empty in Hc. discriminate.
Qed.

Lemma on_Ref_async_ends_without_sink self :
  on_RefTsStr options = false ->
  forall r st, on_Ref_async findBy_ref get_refName self openApi options r st = Return tt st.
Proof. intros Hsink r st. unfold on_Ref_async. now rewrite Hsink. Qed.

(** X15. Called without a sink the collector starts no nested call and
    leaves memo, pending calls and record as they were; if deep mode is off
    as well, it ends on every schema and every document, a bound two above
    the height of the schema being enough. *)
Theorem collector_without_sink fuel schema name st :
  on_RefTsStr options = false ->
  final (jsonSchema2TsStr findBy_ref get_refName format fuel schema name
           openApi options st) = st
  /\ (truthy (js_deep options) = false ->
      (S (height schema) < fuel)%nat ->
      ~ exhausted (jsonSchema2TsStr findBy_ref get_refName format fuel schema name
                     openApi options st)).
Proof.
  intros Hsink.
  assert (Hstate : forall f, final (sync f schema name openApi options st) = st).
  { intros [|f]; [reflexivity|]. cbn [jsonSchema2TsStr_sync]. unfold convertToType_sync.
    refine (preserves_bind (fun s => s = st) _ _ _ _ st eq_refl);
      [|intros; apply preserves_ret].
    apply preserves_parseSchema. intros g r [= <-] s ->.
    unfold post. now rewrite on_Ref_async_ends_without_sink. }
  split.
  - unfold jsonSchema2TsStr, bind. specialize (Hstate fuel).
    destruct (sync fuel schema name openApi options st) as [p s | e s | s];
      cbn [final] in *; subst; [|reflexivity..].
    now destruct (jsonSchema2TsStr_resume format options name p).
  - intros Hshallow Hfuel. destruct fuel as [|fuel]; [lia|].
    unfold jsonSchema2TsStr.
    apply ends_bind.
    + cbn [jsonSchema2TsStr_sync]. unfold convertToType_sync.
      apply ends_bind; [|intros; apply ends_ret].
      apply ends_parseSchema; [exact Hshallow | | lia].
      intros g r [= <-] s'. now rewrite on_Ref_async_ends_without_sink.
    + intros p. destruct (jsonSchema2TsStr_resume format options name p);
        [apply ends_throw | apply ends_ret].
Qed.

End CollectorMemo.

(** ** What the observer is told without deep mode *)

Section Trace.

Context {Document : Type}.
Variable findBy_ref : string -> Document -> option SchemaObject.
Variable get_refName : string -> string.
Variable openApi : Document.
Variable config : Schema2TypeOptions (list ReferenceObject).

Local Abbreviation typeOf := (parseSchema findBy_ref get_refName).
Local Abbreviation Log := (list ReferenceObject).

Lemma appends_ret {A} (a : A) : @appends ReferenceObject A [] (ret a).
Proof. intros log b log' [= _ <-]. now rewrite app_nil_r. Qed.

Lemma appends_bind {A B} g1 g2 (m : M Log A) (k : A -> M Log B) :
  appends g1 m -> (forall a, appends g2 (k a)) -> appends (g1 ++ g2)%list (bind m k).
Proof.
  intros Hm Hk log b log2 H.
  apply bind_Return_inv in H as (a & log1 & H1 & H2).
  rewrite (Hk _ _ _ _ H2), (Hm _ _ _ H1). now rewrite app_assoc.
Qed.

Lemma appends_bind_l {A B} g (m : M Log A) (k : A -> M Log B) :
  appends g m -> (forall a, appends [] (k a)) -> appends g (bind m k).
Proof. intros Hm Hk. rewrite <- (app_nil_r g). now apply appends_bind. Qed.

Lemma appends_bind_r {A B} g (m : M Log A) (k : A -> M Log B) :
  appends [] m -> (forall a, appends g (k a)) -> appends g (bind m k).
Proof. intros Hm Hk. change g with ([] ++ g)%list. now apply appends_bind. Qed.

Lemma appends_mapM {A B} (g : A -> Log) (f : A -> M Log B) l :
  (forall x, appends (g x) (f x)) -> appends (flat_map g l) (mapM f l).
Proof.
  intros Hf. induction l as [|x l IH]; cbn [mapM flat_map]; [apply appends_ret|].
  apply appends_bind; [apply Hf|]. intros y.
  apply appends_bind_l; [exact IH|]. intros; apply appends_ret.
Qed.

Lemma appends_foldM {A B} (g : A -> Log) (f : B -> A -> M Log B) l :
  (forall b x, appends (g x) (f b x)) -> forall b, appends (flat_map g l) (foldM f l b).
Proof.
  intros Hf. induction l as [|x l IH]; intros b; cbn [foldM flat_map];
    [apply appends_ret|].
  apply appends_bind; [apply Hf | exact IH].
Qed.

Lemma appends_resolve pointer :
  @appends ReferenceObject _ [] (resolve findBy_ref pointer openApi).
Proof.
  unfold resolve. destruct (findBy_ref pointer openApi); [apply appends_ret|].
  intros log a log' [=].
Qed.

Hypothesis shallow : truthy (deep config) = false.
Hypothesis recorded : on_Ref config = Some Scenario.record.

Lemma appends_notify r : appends [r] (notify config r).
Proof. unfold notify. rewrite recorded. intros log [] log' [= <-]. reflexivity. Qed.

Lemma appends_dispatch rec schema :
  (forall child, appends (visited child) (rec child)) ->
  appends (visited (Sch schema))
          (dispatch findBy_ref get_refName rec schema openApi config).
Proof.
  intros Hrec. unfold dispatch. cbn [visited].
  destruct (enum schema); [apply appends_ret|].
  unfold recognized.
  destruct (type_is "object" (type schema)).
  { unfold parseObject.
    apply appends_bind_l; [|intros; apply appends_ret].
    destruct (properties schema) as [props|]; cbn [from_option id];
      [|apply appends_ret].
    apply appends_foldM. intros lines [key valueOrigin]. unfold parseProperty.
    apply appends_bind_r.
    - destruct valueOrigin; [apply appends_resolve | apply appends_ret].
    - intros value. apply appends_bind_l; [apply Hrec|]. intros; apply appends_ret. }
  destruct (type_is "array" (type schema)).
  { unfold parseArray. destruct (items schema) as [|it|l].
    - apply appends_ret.
    - rewrite shallow. destruct it as [r|s].
      + apply appends_bind_l; [apply appends_notify|]. intros; apply appends_ret.
      + rewrite bind_ret_l.
        apply appends_bind_l; [apply Hrec|]. intros; apply appends_ret.
    - apply appends_bind_l; [now apply appends_mapM|]. intros; apply appends_ret. }
  cbn [orb].
  destruct (type_is "string" (type schema)); [apply appends_ret|].
  destruct (type_is "number" (type schema)); [apply appends_ret|].
  destruct (type_is "integer" (type schema)); [apply appends_ret|].
  destruct (type_is "boolean" (type schema)); [apply appends_ret|].
  destruct (type_is "null" (type schema)); [apply appends_ret|].
  cbn [orb].
  destruct (oneOf schema) as [l|]; [|apply appends_ret].
  apply appends_bind_l; [now apply appends_mapM|]. intros; apply appends_ret.
Qed.

Lemma appends_parseSchema fuel :
  forall schema, appends (visited schema) (typeOf fuel schema openApi config).
Proof.
  induction fuel as [|fuel IH]; intros schema; [intros log a log' [=]|].
  rewrite parseSchema_S. destruct schema as [r|s].
  - cbn [visited]. apply appends_bind_l; [apply appends_notify|]. intros _.
    rewrite shallow. apply appends_ret.
  - now apply appends_dispatch.
Qed.

(** X16. Without deep mode an observer that keeps a record is told of each
    reference the traversal comes to exactly once for each place it occurs,
    in the order of the schema: when the traversal returns, the record has
    grown by the references of the schema, one after the other. *)
Theorem parseSchema_shallow_trace fuel schema log out log' :
  typeOf fuel schema openApi config log = Return out log' ->
  log' = (log ++ visited schema)%list.
Proof. apply appends_parseSchema. Qed.

End Trace.

(** ** Settling the nested calls, and the declaration *)

Section Settling.

Variable format : string -> option string.
Variable options : JsonSchema2TsOptions.

Lemma complete_grows t st :
  dom (memo st) ⊆ dom (memo (complete format options t st)) /\
  sunk st `prefix_of` sunk (complete format options t st).
Proof.
  unfold complete.
  destruct (jsonSchema2TsStr_resume format options (task_name t) (task_call t))
    as [e | result]; [split; reflexivity|].
  cbn [memo sunk call_sink map_set]. split.
  - rewrite dom_insert_L. set_solver.
  - now apply prefix_app_r.
Qed.

(** X17. Settling the nested calls starts no new work: each step takes one
    call off the pending ones, so a run of [n] steps leaves [n] calls fewer
    and every run is over after as many steps as calls were pending.  On
    the way no name leaves the memo and no sink call is taken back. *)
Theorem settling_progress n st st' :
  nsteps (step format options) n st st' ->
  (length (pending st') + n = length (pending st))%nat
  /\ dom (memo st) ⊆ dom (memo st')
  /\ sunk st `prefix_of` sunk st'.
Proof.
  induction 1 as [st | n st st1 st2 Hstep _ IH].
  - split; [lia | split; reflexivity].
  - destruct IH as (Hlen & Hdom & Hsunk).
    destruct Hstep as [st t l1 l2 Hpending].
    rewrite pending_complete in Hlen. cbn [pending set_pending] in Hlen.
    destruct (complete_grows t (set_pending (l1 ++ l2) st)) as [Hd Hs].
    cbn [memo sunk set_pending] in Hd, Hs.
    split; [|split].
    + rewrite Hpending, !length_app in *. cbn [length]. lia.
    + etransitivity; eassumption.
    + etransitivity; eassumption.
Qed.

(** X18. What a call that was suspended on the printer resolves to: when the
    printer gives back [type Ts = ] and a type expression, the declaration is
    [interface], the name and that expression trimmed, with [export] in front
    when the option asks for it; when the printer rejects, the call rejects
    with the printer's error. *)
Theorem jsonSchema2TsStr_declaration name source :
  (forall body,
     format source = Some ("type Ts = " +:+ body) ->
     jsonSchema2TsStr_resume format options name (AwaitFormat source) =
     inr ((if truthy (export options) then "export " else "") +:+
          "interface " +:+ name +:+ " " +:+ Str.trim body))
  /\ (format source = None ->
      jsonSchema2TsStr_resume format options name (AwaitFormat source) =
      inl (FormatError source)).
Proof.
  unfold jsonSchema2TsStr_resume. cbn [settle]. split.
  - intros body ->.
    unfold convertToType_resume. rewrite after_first_append.
    cbn [from_option id collectorConfig preText].
    rewrite imap_keep. change Str.nl with (String "010"%char "").
    rewrite join_split.
    now destruct (truthy (export options)).
  - now intros ->.
Qed.

End Settling.

(** * Further scenarios *)

(** The array of a reference, with the recording observer and without it. *)
Lemma parseSchema_observer_irrelevant_array :
  parseSchema Openapi.findBy_ref Openapi.get_refName 2
    (Sch Scenario.arrayOfRef) Scenario.single
    (without_observer (Scenario.recording false)) [] = Return "P[]" [].
Proof.
  exact (parseSchema_observer_irrelevant Openapi.findBy_ref Openapi.get_refName
           Scenario.single (Scenario.recording false) 2 (Sch Scenario.arrayOfRef)
           [] "P[]" [ {| ref := Scenario.pP |} ] eq_refl []).
Defined.

Lemma record_ends f r :
  on_Ref (Scenario.recording false) = Some f -> ends (f r).
Proof. intros [= <-] st H. exact H. Qed.

(** Without deep mode the engine ends on the two schemas that reference each
    other. *)
Lemma parseSchema_shallow_ends_cyclic :
  ~ exhausted (parseSchema Openapi.findBy_ref Openapi.get_refName 2
                 (Sch Scenario.schemaA) Scenario.cyclic (Scenario.recording false) []).
Proof.
  apply (parseSchema_shallow_ends Openapi.findBy_ref Openapi.get_refName
           Scenario.cyclic (Scenario.recording false) eq_refl record_ends 2
           (Sch Scenario.schemaA) []).
  cbn. lia.
Defined.

(** [{type: array}] *)
Lemma parseArray_no_items_bare :
  parseSchema Openapi.findBy_ref Openapi.get_refName 1
    (Sch (Scenario.typed "array")) [] (Scenario.plain true) tt = Return "[]" tt.
Proof.
  exact (parseArray_no_items Openapi.findBy_ref Openapi.get_refName []
           (Scenario.plain true) 0 (Scenario.typed "array") tt
           eq_refl eq_refl eq_refl).
Defined.

(** [{type: integer}] *)
Lemma parseSchema_primitive_integer :
  parseSchema Openapi.findBy_ref Openapi.get_refName 1
    (Sch (Scenario.typed "integer")) [] (Scenario.plain true) tt = Return "number" tt.
Proof.
  apply (proj1 (parseSchema_primitive_oneOf Openapi.findBy_ref Openapi.get_refName []
                  (Scenario.plain true) 0 (Scenario.typed "integer") tt eq_refl)
               "integer" eq_refl).
  do 2 apply list_elem_of_further. apply list_elem_of_here.
Defined.

(** The block of the object scenario. *)
Lemma parseObject_block_idNote :
  exists body,
    body <> [] /\
    Forall (fun line => Str.startsWith " " line = true /\
                        occurs "010"%char line = false) body /\
    Str.split "010"%char
      (Str.join Str.nl
         ["{"; " // [required]"; " id: number;"; " // [deprecated]"; " note?: string;"; "}"]) =
    "{" :: body ++ ["}"] /\
    Str.join Str.nl
      ["{"; " // [required]"; " id: number;"; " // [deprecated]"; " note?: string;"; "}"] =
    Str.join Str.nl ("{" :: body ++ ["}"]).
Proof.
  exact (parseObject_block Openapi.findBy_ref Openapi.get_refName []
           (Scenario.plain true) 1 Scenario.idNote _ _ tt _ tt
           eq_refl eq_refl eq_refl eq_refl).
Defined.

(** A property that points nowhere, without deep mode. *)
Lemma parseObject_unresolved_shallow :
  parseSchema Openapi.findBy_ref Openapi.get_refName 1
    (Sch Scenario.schemaA) [] (Scenario.plain false) tt =
  Throw (UnresolvedRef Scenario.pB) tt.
Proof.
  apply (proj2 (parseObject_unresolved Openapi.findBy_ref Openapi.get_refName []
                  (Scenario.plain false) 0 Scenario.schemaA
                  [("b", Scenario.refTo Scenario.pB)] "b" {| ref := Scenario.pB |} tt
                  eq_refl eq_refl eq_refl (list_elem_of_here _ _) eq_refl)
               [] eq_refl).
Defined.

(** The same document without a sink and without deep mode. *)
Lemma collector_without_sink_cyclic :
  let run := jsonSchema2TsStr Openapi.findBy_ref Openapi.get_refName Scenario.verbatim 3
               (Sch Scenario.schemaA) "A" Scenario.cyclic Scenario.silent_shallow
               (start ∅) in
  final run = start ∅ /\ ~ exhausted run.
Proof.
  intros run.
  pose proof (collector_without_sink Openapi.findBy_ref Openapi.get_refName
                Scenario.verbatim Scenario.cyclic Scenario.silent_shallow 3
                (Sch Scenario.schemaA) "A" (start ∅) eq_refl) as [Hstate Hends].
  split; [exact Hstate|]. apply Hends; [reflexivity|]. cbn. lia.
Defined.

(** The reference that occurs twice is recorded twice. *)
Lemma parseSchema_shallow_trace_twice :
  let P := {| ref := Scenario.pP |} in
  [P; P] = ([] ++ visited (Sch Scenario.twice))%list.
Proof.
  intros P.
  exact (parseSchema_shallow_trace Openapi.findBy_ref Openapi.get_refName
           Scenario.single (Scenario.recording false) eq_refl eq_refl 3
           (Sch Scenario.twice) []
           (Str.join Str.nl ["{"; " a?: P;"; " b?: P[];"; "}"]) [P; P] eq_refl).
Defined.

(** Settling the one call that the acyclic scenario leaves pending. *)
Lemma settling_progress_taskB :
  let st := {| memo := ∅; pending := [Scenario.taskB]; sunk := [] |} in
  (length (pending (complete Scenario.verbatim Scenario.collecting Scenario.taskB
                      (set_pending [] st))) + 1 = 1)%nat.
Proof.
  intros st.
  refine (proj1 (settling_progress Scenario.verbatim Scenario.collecting 1 st _ _)).
  apply nsteps_once. exact (step_complete _ _ st Scenario.taskB [] [] eq_refl).
Defined.
